(** * The flow editor of the agent builder

    A shallow embedding of [rnd/autogpt_builder/src/components/Flow.tsx]:
    the event handlers of the [FlowEditor] component as functions on an
    explicit editor state, together with the properties of the history,
    the clipboard and the graph store that the handlers establish.

    Conventions of the embedding.
    - JavaScript numbers are binary64 floating-point numbers ([float],
      with the arithmetic of IEEE 754, rounding to nearest); the node-id
      counter, which only counts up from 1, is an integer ([Z]) rendered
      in decimal by [pretty].
    - An optional field ([status?], [selected?], a handle that may be
      [null]) is an [option], except boolean flags whose absence reads as
      [false], which are plain [bool].
    - React state is threaded explicitly; a handler runs its state updates
      in program order.  A value that a memoised callback reads from the
      render that created it is an explicit argument of the handler. *)

From Stdlib Require Import QArith Qreals Reals Lra Floats.
From stdpp Require Import gmap strings list pretty.

Local Open Scope string_scope.
Local Open Scope list_scope.
Local Set Warnings "-register-all".

(** ** Data carried by nodes and edges *)

(** Block schemas, categories and execution output are JSON values that
    the editor stores and copies but never inspects. *)
Inductive JSON :=
| JNull
| JBool (b : bool)
| JNum (n : float)
| JStr (s : string)
| JArr (items : list JSON)
| JObj (fields : list (string * JSON)).

Module XYPosition.
Record t := mk { x : float; y : float }.
End XYPosition.

(** An entry of [availableNodes]: the schema of one block. *)
Module Block.
Record t := mk {
  id : string;
  description : string;
  categories : list JSON;
  inputSchema : JSON;
  outputSchema : JSON;
  staticOutput : bool
}.
End Block.

(** An entry of [data.connections]. *)
Module ConnectionData.
Record t := mk {
  edge_id : string;
  source : string;
  target : string;
  sourceHandle : option string;
  targetHandle : option string
}.
End ConnectionData.

Module CustomNodeData.
Record t := mk {
  blockType : string;
  title : string;
  description : string;
  categories : list JSON;
  inputSchema : JSON;
  outputSchema : JSON;
  hardcodedValues : gmap string JSON;
  connections : list ConnectionData.t;
  isOutputOpen : bool;
  status : option string;
  output_data : option JSON;
  block_id : string;
  isOutputStatic : bool
}.

Definition with_connections (c : list ConnectionData.t) (d : t) : t :=
  mk (blockType d) (title d) (description d) (categories d) (inputSchema d)
     (outputSchema d) (hardcodedValues d) c (isOutputOpen d) (status d)
     (output_data d) (block_id d) (isOutputStatic d).

(** [{ ...data, status: undefined, output_data: undefined }] *)
Definition reset_result (d : t) : t :=
  mk (blockType d) (title d) (description d) (categories d) (inputSchema d)
     (outputSchema d) (hardcodedValues d) (connections d) (isOutputOpen d)
     None None (block_id d) (isOutputStatic d).

(** [{ ...data, status: undefined, output_data: undefined,
     isOutputOpen: false }] *)
Definition cleared (d : t) : t :=
  mk (blockType d) (title d) (description d) (categories d) (inputSchema d)
     (outputSchema d) (hardcodedValues d) (connections d) false
     None None (block_id d) (isOutputStatic d).
End CustomNodeData.

Module CustomNode.
Record t := mk {
  id : string;
  type : string;
  position : XYPosition.t;
  selected : bool;
  data : CustomNodeData.t
}.

Definition with_position (p : XYPosition.t) (n : t) : t :=
  mk (id n) (type n) p (selected n) (data n).
Definition with_selected (s : bool) (n : t) : t :=
  mk (id n) (type n) (position n) s (data n).
Definition with_data (d : CustomNodeData.t) (n : t) : t :=
  mk (id n) (type n) (position n) (selected n) d.
End CustomNode.

Module Marker.
Record t := mk { type : string; strokeWidth : float; color : string }.
End Marker.

Module CustomEdgeData.
Record t := mk {
  edgeColor : string;
  sourcePos : XYPosition.t;
  isStatic : bool
}.
End CustomEdgeData.

Module CustomEdge.
Record t := mk {
  id : string;
  type : string;
  source : string;
  sourceHandle : option string;
  target : string;
  targetHandle : option string;
  selected : bool;
  markerEnd : option Marker.t;
  data : option CustomEdgeData.t
}.

Definition with_selected (s : bool) (e : t) : t :=
  mk (id e) (type e) (source e) (sourceHandle e) (target e)
     (targetHandle e) s (markerEnd e) (data e).
End CustomEdge.

(** What the graph library hands to [onConnect]. *)
Module Connection.
Record t := mk {
  source : string;
  sourceHandle : option string;
  target : string;
  targetHandle : option string
}.
End Connection.

(** A link as the server stores it (the other argument type of
    [formatEdgeID]). *)
Module Link.
Record t := mk {
  source_id : string;
  source_name : string;
  sink_id : string;
  sink_name : string
}.
End Link.

(** The [nodes] and [edges] arrays the component renders. *)
Record Graph := mkGraph {
  nodes : list CustomNode.t;
  edges : list CustomEdge.t
}.

Definition setNodes (f : list CustomNode.t → list CustomNode.t) (g : Graph) : Graph :=
  mkGraph (f (nodes g)) (edges g).

Definition setEdges (f : list CustomEdge.t → list CustomEdge.t) (g : Graph) : Graph :=
  mkGraph (nodes g) (f (edges g)).

(** ** The graph library, in controlled mode

    [FlowEditor] passes [nodes] and [edges] to [<ReactFlow>] as props, so
    the library never mutates them itself: every operation of the library
    reaches the component as a batch of changes through [onNodesChange] or
    [onEdgesChange], and the arrays change only where a handler calls
    [setNodes] or [setEdges].  This module is the documented behaviour of
    the library functions that [Flow.tsx] imports; the library is not part
    of the repository. *)
Module ReactFlow.

Section Changes.
Context {A : Type} (elemId : A → string).

(** [NodeChange] and [EdgeChange] share this shape; [Modify] stands for
    the changes that patch an element in place (selection, position). *)
Inductive Change :=
| Add (item : A)
| Remove (id : string)
| Replace (id : string) (item : A)
| Modify (id : string) (patch : A → A).

Definition added (cs : list Change) : list A :=
  omap (λ c, match c with Add item => Some item | _ => None end) cs.
Definition removed (cs : list Change) : list string :=
  omap (λ c, match c with Remove i => Some i | _ => None end) cs.
Definition replaced (cs : list Change) : list A :=
  omap (λ c, match c with Replace _ item => Some item | _ => None end) cs.

(** The changes that apply to the element [i]: a removal or a replacement
    starts the list afresh, a patch is queued behind what is there. *)
Fixpoint changesFor (i : string) (cs acc : list Change) : list Change :=
  match cs with
  | [] => acc
  | Add _ :: cs' => changesFor i cs' acc
  | Remove j as c :: cs' | Replace j _ as c :: cs' =>
      changesFor i cs' (if bool_decide (j = i) then [c] else acc)
  | Modify j _ as c :: cs' =>
      changesFor i cs' (if bool_decide (j = i) then acc ++ [c] else acc)
  end.

Definition patched (el : A) (cs : list Change) : A :=
  foldl (λ e c, match c with Modify _ f => f e | _ => e end) el cs.

(** An element under its changes: removed, replaced, or patched. *)
Definition applyTo (el : A) (cs : list Change) : option A :=
  match cs with
  | [] => Some el
  | Remove _ :: _ => None
  | Replace _ item :: _ => Some item
  | _ => Some (patched el cs)
  end.

(** [applyNodeChanges] / [applyEdgeChanges]: surviving elements keep their
    order, added items go to the end. *)
Definition applyChanges (cs : list Change) (els : list A) : list A :=
  omap (λ el, applyTo el (changesFor (elemId el) cs [])) els ++ added cs.

(** What the library reports when the items [payload] are put behind the
    elements [stored] that it holds: it compares the new array with what it
    holds by id, so an item whose id it holds already is reported as a
    replacement of the element with that id, and any other item as an
    addition. *)
Definition reported (stored payload : list A) : list Change :=
  map (λ item,
         if bool_decide (elemId item ∈ map elemId stored)
         then Replace (elemId item) item else Add item)
      payload.
End Changes.

Arguments Change : clear implicits.

End ReactFlow.

Abbreviation NodeChange := (ReactFlow.Change CustomNode.t).
Abbreviation EdgeChange := (ReactFlow.Change CustomEdge.t).

Definition applyNodeChanges : list NodeChange → list CustomNode.t → list CustomNode.t :=
  ReactFlow.applyChanges CustomNode.id.
Definition applyEdgeChanges : list EdgeChange → list CustomEdge.t → list CustomEdge.t :=
  ReactFlow.applyChanges CustomEdge.id.

(** The ['select'] and ['position'] changes of the library. *)
Definition selectNode (i : string) (s : bool) : NodeChange :=
  ReactFlow.Modify i (CustomNode.with_selected s).
Definition moveNode (i : string) (p : XYPosition.t) : NodeChange :=
  ReactFlow.Modify i (CustomNode.with_position p).
Definition selectEdge (i : string) (s : bool) : EdgeChange :=
  ReactFlow.Modify i (CustomEdge.with_selected s).

(** ** Handlers that act on the graph alone *)

(** [clearNodesStatusAndOutput] *)
Definition clearNodesStatusAndOutput : Graph → Graph :=
  setNodes (map (λ node,
    CustomNode.with_data (CustomNodeData.cleared (CustomNode.data node)) node)).

(** The record [onEdgesChange] stores in [data.connections] for an edge. *)
Definition connectionOf (item : CustomEdge.t) : ConnectionData.t :=
  ConnectionData.mk (CustomEdge.id item) (CustomEdge.source item)
    (CustomEdge.target item) (CustomEdge.sourceHandle item)
    (CustomEdge.targetHandle item).

(** [onEdgesChange] *)
Definition onEdgesChange (edgeChanges : list EdgeChange) (g : Graph) : Graph :=
  let g := setEdges (applyEdgeChanges edgeChanges) g in
  let addedEdges := ReactFlow.added edgeChanges in
  let replaceEdges := ReactFlow.replaced edgeChanges in
  let removedEdges := ReactFlow.removed edgeChanges in
  let g :=
    if bool_decide (0 < length addedEdges ∨ 0 < length removedEdges)%nat then
      let g := setNodes (map (λ node,
        CustomNode.with_data
          (CustomNodeData.with_connections
             (filter (λ conn, ConnectionData.edge_id conn ∉ removedEdges)
                     (CustomNodeData.connections (CustomNode.data node))
              ++ map connectionOf addedEdges)
             (CustomNode.data node))
          node)) g in
      if bool_decide (0 < length removedEdges)%nat
      then clearNodesStatusAndOutput g else g
    else g in
  if bool_decide (0 < length replaceEdges)%nat then
    clearNodesStatusAndOutput
      (setNodes (map (λ node,
         CustomNode.with_data
           (CustomNodeData.with_connections (map connectionOf replaceEdges)
              (CustomNode.data node))
           node)) g)
  else g.

(** [deleteElements({ edges })]: the library looks the ids up among the
    current edges and, when some edge matches, reports the removals
    through [onEdgesChange]. *)
Definition deleteEdges (ids : list string) (g : Graph) : Graph :=
  let matching := filter (λ edge, CustomEdge.id edge ∈ ids) (edges g) in
  if bool_decide (matching = []) then g
  else onEdgesChange (map (λ edge, ReactFlow.Remove (CustomEdge.id edge)) matching) g.

(** [onNodesChange].  The callback is memoised on
    [[deleteElements, setNodes]].  [setNodes] is a state setter and
    [deleteElements] comes from the library's [useReactFlow]; both keep
    their identity from one render to the next, so the array [edges] that
    the callback filters is the one of the render that created it.  It is
    the first argument here.  The removals themselves are looked up in the
    current graph by [deleteElements]. *)
Definition onNodesChange (edges : list CustomEdge.t)
    (nodeChanges : list NodeChange) (g : Graph) : Graph :=
  let g := setNodes (applyNodeChanges nodeChanges) g in
  foldl (λ g nodeID,
           let connectedEdges :=
             filter (λ edge, nodeID ∈ [CustomEdge.source edge; CustomEdge.target edge])
                    edges in
           deleteEdges (map CustomEdge.id connectedEdges) g)
        g (ReactFlow.removed nodeChanges).

(** [onNodesDelete] *)
Definition onNodesDelete : Graph → Graph := clearNodesStatusAndOutput.

Section Mounted.
(** The [edges] array seen by the memoised [onNodesChange]. *)
Variable memoEdges : list CustomEdge.t.

(** [deleteElements({ nodes, edges })]: the nodes with a listed id go,
    and with them the edges attached to them and the edges with a listed
    id.  Edge removals are reported first, then [onNodesDelete] and the
    node removals. *)
Definition deleteElements (nodeIds edgeIds : list string) (g : Graph) : Graph :=
  let matchingNodes := filter (λ node, CustomNode.id node ∈ nodeIds) (nodes g) in
  let gone := map CustomNode.id matchingNodes in
  let matchingEdges :=
    filter (λ edge, CustomEdge.source edge ∈ gone ∨ CustomEdge.target edge ∈ gone
                    ∨ CustomEdge.id edge ∈ edgeIds) (edges g) in
  let g :=
    if bool_decide (matchingEdges = []) then g
    else onEdgesChange
           (map (λ edge, ReactFlow.Remove (CustomEdge.id edge)) matchingEdges) g in
  if bool_decide (matchingNodes = []) then g
  else onNodesChange memoEdges
         (map (λ node, ReactFlow.Remove (CustomNode.id node)) matchingNodes)
         (onNodesDelete g).

(** [addNodes(payload)]: the nodes are put behind the others.  The
    handlers pass it nodes that they have just named after the node-id
    counter ([addNode], paste), and the redo of an added block passes the
    node that the undo before it has deleted; these ids are not in use
    then, and the library reports additions. *)
Definition addNodes (payload : list CustomNode.t) : Graph → Graph :=
  onNodesChange memoEdges (map ReactFlow.Add payload).

(** [updateNode(id, { position })]: the node with this id is replaced
    by a copy that carries the new position. *)
Definition updateNode (id : string) (position : XYPosition.t) (g : Graph) : Graph :=
  onNodesChange memoEdges
    (omap (λ node,
             if bool_decide (CustomNode.id node = id)
             then Some (ReactFlow.Replace id (CustomNode.with_position position node))
             else None) (nodes g)) g.
End Mounted.

(** [addEdges(payload)].  Edge ids are made from the handles an edge
    joins, so the payload can carry the id of an edge that is there: the
    library then reports a replacement. *)
Definition addEdges (payload : list CustomEdge.t) (g : Graph) : Graph :=
  onEdgesChange (ReactFlow.reported CustomEdge.id (edges g) payload) g.

(** [getNode(id)] *)
Definition getNode (id : string) (g : Graph) : option CustomNode.t :=
  head (filter (λ node, CustomNode.id node = id) (nodes g)).

(** ** The history *)

(** What an entry records. *)
Inductive Payload :=
| NodePayload (node : CustomNodeData.t)
| EdgePayload (edge : CustomEdge.t)
| PositionPayload (nodeId : string) (oldPosition newPosition : XYPosition.t).

(** An entry as [Flow.tsx] builds it: [{ type, payload, undo, redo }].
    The two closures call library functions only, so they act on the
    graph. *)
Record Action := mkAction {
  type : string;
  payload : Payload;
  undo : Graph → Graph;
  redo : Graph → Graph
}.

Module History.
(** Modelled from the spec: the module [./history], whose singleton
    [history] the editor calls through [push], [undo] and [redo], is not
    among the sources.  The spec calls it an in-memory undo/redo stack of
    reversible operations: a stack of the operations done, most recent
    first, and a stack of the operations undone. *)
Record t := mk { past : list Action; future : list Action }.

(** Modelled from the spec: the history of a freshly loaded module. *)
Definition empty : t := mk [] [].

(** Modelled from the spec: [history.push].  A new operation goes on top
    of the done stack.  The spec does not say what becomes of the
    operations undone before it; they are let go here. *)
Definition push (action : Action) (h : t) : t :=
  mk (action :: past h) [].

(** Modelled from the spec: [history.undo].  It runs the [undo] of the top
    of the done stack and moves the entry to the undone stack; on an empty
    stack it does nothing. *)
Definition undo (h : t) (g : Graph) : t * Graph :=
  match past h with
  | [] => (h, g)
  | action :: rest => (mk rest (action :: future h), undo action g)
  end.

(** Modelled from the spec: [history.redo].  It runs the [redo] of the top
    of the undone stack and moves the entry back; on an empty stack it
    does nothing. *)
Definition redo (h : t) (g : Graph) : t * Graph :=
  match future h with
  | [] => (h, g)
  | action :: rest => (mk (action :: past h) rest, redo action g)
  end.

(** Every entry the history holds. *)
Definition entries (h : t) : list Action := past h ++ future h.
End History.

(** ** The editor *)

(** What a handler reads from the browser and from hooks whose code is
    elsewhere: the platform, the focused element, the clock, the window
    and the viewport, and the two colour helpers of [onConnect]. *)
Module Env.
Record t := mk {
  isMac : bool;
  isInputField : bool;
  now : Z;
  innerWidth : float;
  innerHeight : float;
  x : float;
  y : float;
  zoom : float;
  getOutputType : string → option string → string;
  getTypeColor : string → string
}.
End Env.

Module KeyboardEvent.
Record t := mk {
  key : string;
  ctrlKey : bool;
  metaKey : bool;
  shiftKey : bool
}.
End KeyboardEvent.

Record Editor := mkEditor {
  graph : Graph;
  availableNodes : list Block.t;
  nodeId : Z;
  copiedNodes : list CustomNode.t;
  copiedEdges : list CustomEdge.t;
  isAnyModalOpen : bool;
  initialPositionRef : gmap string XYPosition.t;
  isDragging : bool;
  history : History.t;
  (** the [edges] array inside the memoised [onNodesChange] *)
  memoEdges : list CustomEdge.t
}.

Definition withGraph (g : Graph) (st : Editor) : Editor :=
  mkEditor g (availableNodes st) (nodeId st) (copiedNodes st) (copiedEdges st)
    (isAnyModalOpen st) (initialPositionRef st) (isDragging st) (history st)
    (memoEdges st).
Definition setNodeId (f : Z → Z) (st : Editor) : Editor :=
  mkEditor (graph st) (availableNodes st) (f (nodeId st)) (copiedNodes st)
    (copiedEdges st) (isAnyModalOpen st) (initialPositionRef st) (isDragging st)
    (history st) (memoEdges st).
Definition setCopiedNodes (ns : list CustomNode.t) (st : Editor) : Editor :=
  mkEditor (graph st) (availableNodes st) (nodeId st) ns (copiedEdges st)
    (isAnyModalOpen st) (initialPositionRef st) (isDragging st) (history st)
    (memoEdges st).
Definition setCopiedEdges (es : list CustomEdge.t) (st : Editor) : Editor :=
  mkEditor (graph st) (availableNodes st) (nodeId st) (copiedNodes st) es
    (isAnyModalOpen st) (initialPositionRef st) (isDragging st) (history st)
    (memoEdges st).
Definition setIsAnyModalOpen (b : bool) (st : Editor) : Editor :=
  mkEditor (graph st) (availableNodes st) (nodeId st) (copiedNodes st)
    (copiedEdges st) b (initialPositionRef st) (isDragging st) (history st)
    (memoEdges st).
Definition withInitialPositionRef (m : gmap string XYPosition.t) (st : Editor) : Editor :=
  mkEditor (graph st) (availableNodes st) (nodeId st) (copiedNodes st)
    (copiedEdges st) (isAnyModalOpen st) m (isDragging st) (history st)
    (memoEdges st).
Definition withIsDragging (b : bool) (st : Editor) : Editor :=
  mkEditor (graph st) (availableNodes st) (nodeId st) (copiedNodes st)
    (copiedEdges st) (isAnyModalOpen st) (initialPositionRef st) b (history st)
    (memoEdges st).
Definition withHistory (h : History.t) (st : Editor) : Editor :=
  mkEditor (graph st) (availableNodes st) (nodeId st) (copiedNodes st)
    (copiedEdges st) (isAnyModalOpen st) (initialPositionRef st) (isDragging st) h
    (memoEdges st).

(** A state update of the graph, as a state update of the editor. *)
Definition onGraph (f : Graph → Graph) (st : Editor) : Editor :=
  withGraph (f (graph st)) st.

(** The editor as first rendered with the given blocks: an empty graph,
    the counter at 1, nothing copied, an empty history. *)
Definition mounted (blocks : list Block.t) : Editor :=
  mkEditor (mkGraph [] []) blocks 1 [] [] false ∅ false History.empty [].

(** *** Dragging *)

Definition MINIMUM_MOVE_BEFORE_LOG : float := 50.

(** [Math.pow(d, 2)]: the square of [d], rounded once. *)
Definition Math_pow2 (d : float) : float := d * d.

(** [distanceMoved]: every operation of
    [Math.sqrt(Math.pow(dx, 2) + Math.pow(dy, 2))], the two differences
    included, rounds its result to the nearest double. *)
Definition distanceMoved (oldPosition newPosition : XYPosition.t) : float :=
  sqrt (Math_pow2 (XYPosition.x newPosition - XYPosition.x oldPosition)
        + Math_pow2 (XYPosition.y newPosition - XYPosition.y oldPosition)).

(** [distanceMoved > MINIMUM_MOVE_BEFORE_LOG]; the comparison is false
    when the distance is not a number. *)
Definition movedEnough (oldPosition newPosition : XYPosition.t) : bool :=
  (MINIMUM_MOVE_BEFORE_LOG <? distanceMoved oldPosition newPosition)%float.

(** [onNodeDragStart] *)
Definition onNodeDragStart (node : CustomNode.t) (st : Editor) : Editor :=
  withIsDragging true
    (withInitialPositionRef
       (<[CustomNode.id node := CustomNode.position node]> (initialPositionRef st)) st).

(** The entry pushed by [onNodeDragEnd]. *)
Definition positionAction (memo : list CustomEdge.t) (id : string)
    (oldPosition newPosition : XYPosition.t) : Action :=
  mkAction "UPDATE_NODE_POSITION"
    (PositionPayload id oldPosition newPosition)
    (updateNode memo id oldPosition)
    (updateNode memo id newPosition).

(** [onNodeDragEnd]; the library passes [null] when no node was dragged. *)
Definition onNodeDragEnd (node : option CustomNode.t) (st : Editor) : Editor :=
  match node with
  | None => st
  | Some node =>
      let st := withIsDragging false st in
      let newPosition := CustomNode.position node in
      match initialPositionRef st !! CustomNode.id node with
      | None => st
      | Some oldPosition =>
          let st :=
            if movedEnough oldPosition newPosition then
              withHistory
                (History.push
                   (positionAction (memoEdges st) (CustomNode.id node)
                      oldPosition newPosition)
                   (history st)) st
            else st in
          withInitialPositionRef
            (delete (CustomNode.id node) (initialPositionRef st)) st
      end
  end.

(** *** Connecting *)

(** How a template literal renders a handle that may be [null]. *)
Definition handleText (h : option string) : string := default "null" h.

(** [formatEdgeID]; a link is told from a connection by its [sink_id]. *)
Definition formatEdgeID (conn : Link.t + Connection.t) : string :=
  match conn with
  | inl conn =>
      Link.source_id conn +:+ "_" +:+ Link.source_name conn +:+ "_"
      +:+ Link.sink_id conn +:+ "_" +:+ Link.sink_name conn
  | inr conn =>
      Connection.source conn +:+ "_" +:+ handleText (Connection.sourceHandle conn)
      +:+ "_" +:+ Connection.target conn +:+ "_"
      +:+ handleText (Connection.targetHandle conn)
  end.

(** The entry pushed by [onConnect]. *)
Definition edgeAction (newEdge : CustomEdge.t) : Action :=
  mkAction "ADD_EDGE" (EdgePayload newEdge)
    (deleteEdges [CustomEdge.id newEdge])
    (addEdges [newEdge]).

(** The edge [onConnect] builds for a connection whose source node is
    [sourceNode]. *)
Definition newEdgeOf (env : Env.t) (connection : Connection.t)
    (sourceNode : CustomNode.t) : CustomEdge.t :=
  let edgeColor :=
    Env.getTypeColor env
      (Env.getOutputType env (Connection.source connection)
         (Connection.sourceHandle connection)) in
  CustomEdge.mk
    (formatEdgeID (inr connection))
    "custom"
    (Connection.source connection)
    (Connection.sourceHandle connection)
    (Connection.target connection)
    (Connection.targetHandle connection)
    false
    (Some (Marker.mk "arrowclosed" 2 edgeColor))
    (Some (CustomEdgeData.mk edgeColor (CustomNode.position sourceNode)
             (CustomNodeData.isOutputStatic (CustomNode.data sourceNode)))).

(** [onConnect].  Reading [sourceNode!.position] throws when the library
    knows no node with the source id; nothing has been changed by then,
    and the result is [None]. *)
Definition onConnect (env : Env.t) (connection : Connection.t) (st : Editor)
    : option Editor :=
  match getNode (Connection.source connection) (graph st) with
  | None => None
  | Some sourceNode =>
      let newEdge := newEdgeOf env connection sourceNode in
      let st := onGraph (addEdges [newEdge]) st in
      let st := withHistory (History.push (edgeAction newEdge) (history st)) st in
      Some (onGraph clearNodesStatusAndOutput st)
  end.

(** *** Adding a block *)

(** The entry pushed by [addNode]. *)
Definition nodeAction (memo : list CustomEdge.t) (newNode : CustomNode.t) : Action :=
  mkAction "ADD_NODE" (NodePayload (CustomNode.data newNode))
    (deleteElements memo [CustomNode.id newNode] [])
    (addNodes memo [newNode]).

(** The node [addNode] builds from the schema of the block. *)
Definition newNodeOf (env : Env.t) (nodeId : Z) (blockId nodeType : string)
    (nodeSchema : Block.t) : CustomNode.t :=
  let viewportCenter :=
    XYPosition.mk ((Env.innerWidth env / 2 - Env.x env) / Env.zoom env)
                  ((Env.innerHeight env / 2 - Env.y env) / Env.zoom env) in
  CustomNode.mk (pretty nodeId) "custom" viewportCenter false
    (CustomNodeData.mk
       nodeType
       (nodeType +:+ " " +:+ pretty nodeId)
       (Block.description nodeSchema)
       (Block.categories nodeSchema)
       (Block.inputSchema nodeSchema)
       (Block.outputSchema nodeSchema)
       ∅
       []
       false
       None
       None
       blockId
       (Block.staticOutput nodeSchema)).

(** [addNode] *)
Definition addNode (env : Env.t) (blockId nodeType : string) (st : Editor) : Editor :=
  match List.find (λ node, bool_decide (Block.id node = blockId)) (availableNodes st) with
  | None => st
  | Some nodeSchema =>
      let newNode := newNodeOf env (nodeId st) blockId nodeType nodeSchema in
      let st := onGraph (addNodes (memoEdges st) [newNode]) st in
      let st := setNodeId (λ prevId, prevId + 1)%Z st in
      let st := onGraph clearNodesStatusAndOutput st in
      withHistory (History.push (nodeAction (memoEdges st) newNode) (history st)) st
  end.

(** *** Undo and redo *)

(** [handleUndo] *)
Definition handleUndo (st : Editor) : Editor :=
  let '(h, g) := History.undo (history st) (graph st) in
  withHistory h (withGraph g st).

(** [handleRedo] *)
Definition handleRedo (st : Editor) : Editor :=
  let '(h, g) := History.redo (history st) (graph st) in
  withHistory h (withGraph g st).

(** The key listener installed by the first effect. *)
Definition undoRedoKeyDown (env : Env.t) (event : KeyboardEvent.t) (st : Editor) : Editor :=
  let modifier :=
    if Env.isMac env then KeyboardEvent.metaKey event else KeyboardEvent.ctrlKey event in
  let isUndo := modifier && bool_decide (KeyboardEvent.key event = "z") in
  let isRedo :=
    modifier &&
    (bool_decide (KeyboardEvent.key event = "y")
     || (KeyboardEvent.shiftKey event && bool_decide (KeyboardEvent.key event = "Z"))) in
  let st := if isUndo then handleUndo st else st in
  if isRedo then handleRedo st else st.

(** *** Copy and paste *)

(** [oldToNewNodeIDMap] after the [map] over [copiedNodes]. *)
Definition oldToNewNodeIDMap (nodeId : Z) (copiedNodes : list CustomNode.t)
    : gmap string string :=
  foldl (λ m entry, <[entry.1 := entry.2]> m) ∅
    (imap (λ index node, (CustomNode.id node, pretty (nodeId + Z.of_nat index)%Z))
          copiedNodes).

Definition pastedNode (nodeId : Z) (index : nat) (node : CustomNode.t) : CustomNode.t :=
  CustomNode.mk
    (pretty (nodeId + Z.of_nat index)%Z)
    (CustomNode.type node)
    (XYPosition.mk (XYPosition.x (CustomNode.position node) + 20)
                   (XYPosition.y (CustomNode.position node) + 20))
    (CustomNode.selected node)
    (CustomNodeData.reset_result (CustomNode.data node)).

Definition pastedEdge (now : Z) (ids : gmap string string) (edge : CustomEdge.t)
    : CustomEdge.t :=
  let newSourceId := default (CustomEdge.source edge) (ids !! CustomEdge.source edge) in
  let newTargetId := default (CustomEdge.target edge) (ids !! CustomEdge.target edge) in
  CustomEdge.mk
    (newSourceId +:+ "_" +:+ handleText (CustomEdge.sourceHandle edge) +:+ "_"
     +:+ newTargetId +:+ "_" +:+ handleText (CustomEdge.targetHandle edge) +:+ "_"
     +:+ pretty now)
    (CustomEdge.type edge)
    newSourceId
    (CustomEdge.sourceHandle edge)
    newTargetId
    (CustomEdge.targetHandle edge)
    (CustomEdge.selected edge)
    (CustomEdge.markerEnd edge)
    (CustomEdge.data edge).

(** The copy branch of [handleKeyDown]. *)
Definition copySelection (st : Editor) : Editor :=
  let selectedNodes := filter (λ node, CustomNode.selected node = true) (nodes (graph st)) in
  let selectedEdges := filter (λ edge, CustomEdge.selected edge = true) (edges (graph st)) in
  setCopiedEdges selectedEdges (setCopiedNodes selectedNodes st).

(** The paste branch of [handleKeyDown]. *)
Definition pasteClipboard (env : Env.t) (st : Editor) : Editor :=
  if bool_decide (0 < length (copiedNodes st))%nat then
    let ids := oldToNewNodeIDMap (nodeId st) (copiedNodes st) in
    let pastedNodes := imap (pastedNode (nodeId st)) (copiedNodes st) in
    let st := onGraph (setNodes (map (CustomNode.with_selected false))) st in
    let st := onGraph (addNodes (memoEdges st) pastedNodes) st in
    let st := setNodeId (λ prevId, prevId + Z.of_nat (length (copiedNodes st)))%Z st in
    let pastedEdges := map (pastedEdge (Env.now env) ids) (copiedEdges st) in
    onGraph (addEdges pastedEdges) st
  else st.

(** [handleKeyDown], the key listener for copy and paste. *)
Definition handleKeyDown (env : Env.t) (event : KeyboardEvent.t) (st : Editor) : Editor :=
  if isAnyModalOpen st || Env.isInputField env then st
  else if KeyboardEvent.ctrlKey event || KeyboardEvent.metaKey event then
    let key := KeyboardEvent.key event in
    let st :=
      if bool_decide (key = "c") || bool_decide (key = "C")
      then copySelection st else st in
    if bool_decide (key = "v") || bool_decide (key = "V")
    then pasteClipboard env st else st
  else st.

(** ** Events *)

(** What can happen to the mounted editor: the callbacks [<ReactFlow>]
    and the control panel invoke, and key presses on the window.  The last
    constructor is the library acting on the delete key, which it does by
    calling [deleteElements] on the selection. *)
Inductive Event :=
| NodeDragStart (node : CustomNode.t)
| NodeDragStop (node : option CustomNode.t)
| NodesChange (nodeChanges : list NodeChange)
| EdgesChange (edgeChanges : list EdgeChange)
| NodesDelete
| Connect (connection : Connection.t)
| AddBlock (blockId nodeType : string)
| ClickUndo
| ClickRedo
| KeyDown (event : KeyboardEvent.t)
| ModalOpen (isOpen : bool)
| DeleteSelection.

Definition step (env : Env.t) (st : Editor) (ev : Event) : Editor :=
  match ev with
  | NodeDragStart node => onNodeDragStart node st
  | NodeDragStop node => onNodeDragEnd node st
  | NodesChange nodeChanges => onGraph (onNodesChange (memoEdges st) nodeChanges) st
  | EdgesChange edgeChanges => onGraph (onEdgesChange edgeChanges) st
  | NodesDelete => onGraph onNodesDelete st
  | Connect connection => default st (onConnect env connection st)
  | AddBlock blockId nodeType => addNode env blockId nodeType st
  | ClickUndo => handleUndo st
  | ClickRedo => handleRedo st
  | KeyDown event => handleKeyDown env event (undoRedoKeyDown env event st)
  | ModalOpen isOpen => setIsAnyModalOpen isOpen st
  | DeleteSelection =>
      onGraph
        (deleteElements (memoEdges st)
           (map CustomNode.id
              (filter (λ node, CustomNode.selected node = true) (nodes (graph st))))
           (map CustomEdge.id
              (filter (λ edge, CustomEdge.selected edge = true) (edges (graph st)))))
        st
  end.

(** The editor after a sequence of events. *)
Definition run (env : Env.t) : Editor → list Event → Editor := foldl (step env).

(** ** Vocabulary of the statements *)

(** A node with more entries in [data.connections]. *)
Definition connectedBy (es : list CustomEdge.t) (node : CustomNode.t) : CustomNode.t :=
  CustomNode.with_data
    (CustomNodeData.with_connections
       (CustomNodeData.connections (CustomNode.data node) ++ map connectionOf es)
       (CustomNode.data node))
    node.

(** A node without the entries of [data.connections] made for the edges
    [ids]. *)
Definition disconnectedFrom (ids : list string) (node : CustomNode.t) : CustomNode.t :=
  CustomNode.with_data
    (CustomNodeData.with_connections
       (filter (λ conn, ConnectionData.edge_id conn ∉ ids)
          (CustomNodeData.connections (CustomNode.data node)))
       (CustomNode.data node))
    node.

Definition clearedNode (node : CustomNode.t) : CustomNode.t :=
  CustomNode.with_data (CustomNodeData.cleared (CustomNode.data node)) node.

(** The three kinds of entry. *)
Definition entryTypes : list string :=
  ["ADD_NODE"; "ADD_EDGE"; "UPDATE_NODE_POSITION"].






(** The number that a finite double stands for, as a fraction; zero for
    the infinities and for NaN, which stand for none. *)
Definition exactValue (d : float) : Q :=
  match Prim2SF d with
  | S754_finite s m e => (if s then -1 else 1) * inject_Z (Zpos m) * Qpower 2 e
  | _ => 0
  end.

(** The square of the Euclidean distance between two positions, and the
    distance itself as a real number: the distance of C3, to set against
    [distanceMoved]. *)
Definition squaredEuclideanDistance (p q : XYPosition.t) : Q :=
  (exactValue (XYPosition.x q) - exactValue (XYPosition.x p)) ^ 2
  + (exactValue (XYPosition.y q) - exactValue (XYPosition.y p)) ^ 2.
Definition euclideanDistance (p q : XYPosition.t) : R :=
  R_sqrt.sqrt (Q2R (squaredEuclideanDistance p q)).

(** Ctrl/Cmd+C and Ctrl/Cmd+V. *)
Definition isCopyKey (event : KeyboardEvent.t) : Prop :=
  (KeyboardEvent.ctrlKey event || KeyboardEvent.metaKey event) = true
  ∧ KeyboardEvent.key event ∈ ["c"; "C"].
Definition isPasteKey (event : KeyboardEvent.t) : Prop :=
  (KeyboardEvent.ctrlKey event || KeyboardEvent.metaKey event) = true
  ∧ KeyboardEvent.key event ∈ ["v"; "V"].

(** ** A small session, for the examples *)

Definition demoEnv : Env.t :=
  Env.mk false false 1700000000000 1280 720 0 0 1 (λ _ _, "number") (λ _, "#3b82f6").

Definition adderBlock : Block.t :=
  Block.mk "adder" "Adds two numbers" [JStr "LOGIC"]
    (JObj [("a", JStr "number"); ("b", JStr "number")])
    (JObj [("result", JStr "number")])
    false.

(** The output of node 1 wired to the first input of node 2. *)
Definition wire : Connection.t :=
  Connection.mk "1" (Some "result") "2" (Some "a").

(** Two adder blocks on the canvas. *)
Definition twoAdders : Editor :=
  run demoEnv (mounted [adderBlock])
    [AddBlock "adder" "Adder"; AddBlock "adder" "Adder"].

(** The first wired into the second. *)
Definition wiredPair : Editor := step demoEnv twoAdders (Connect wire).

(** The same output wired to the second input as well. *)
Definition secondWire : Connection.t :=
  Connection.mk "1" (Some "result") "2" (Some "b").
Definition doublyWired : Editor := step demoEnv wiredPair (Connect secondWire).

Definition ctrlC : KeyboardEvent.t := KeyboardEvent.mk "c" true false false.
Definition ctrlV : KeyboardEvent.t := KeyboardEvent.mk "v" true false false.

(** The pair with both nodes and the edge between them selected. *)
Definition selectedPair : Editor :=
  run demoEnv wiredPair
    [NodesChange [selectNode "1" true; selectNode "2" true];
     EdgesChange [selectEdge "1_result_2_a" true]].

(** The node that the first adder block becomes. *)
Definition firstAdder : CustomNode.t := newNodeOf demoEnv 1 "adder" "Adder" adderBlock.

(** The same node after a drag by (3, 4), and after a drag by (100, 0). *)
Definition nudgedAdder : CustomNode.t :=
  CustomNode.with_position (XYPosition.mk 643 364) firstAdder.
Definition draggedAdder : CustomNode.t :=
  CustomNode.with_position (XYPosition.mk 740 360) firstAdder.

(** The same node after a drag by 50 to the right and by 2^-24 down. *)
Definition grazedAdder : CustomNode.t :=
  CustomNode.with_position (XYPosition.mk 690 360.000000059604644775390625) firstAdder.

(** ** Vocabulary of the further statements *)

(** The modifier of the undo and redo shortcuts: Cmd on a Mac, Ctrl
    elsewhere. *)
Definition undoModifier (env : Env.t) (event : KeyboardEvent.t) : bool :=
  if Env.isMac env then KeyboardEvent.metaKey event else KeyboardEvent.ctrlKey event.

(** The text has no underscore. *)
Fixpoint underscoreFree (s : string) : Prop :=
  match s with
  | EmptyString => True
  | String c rest => String c "" ≠ "_" ∧ underscoreFree rest
  end.

(** What a run left on a node: its status, its output, and whether the
    output is shown. *)
Definition nodeResult (node : CustomNode.t)
    : option string * option JSON * bool :=
  (CustomNodeData.status (CustomNode.data node),
   CustomNodeData.output_data (CustomNode.data node),
   CustomNodeData.isOutputOpen (CustomNode.data node)).

(** Every node is without status and output, its output closed. *)
Definition resultsWiped (g : Graph) : Prop :=
  Forall (λ node, nodeResult node = (None, None, false)) (nodes g).

(** Every connection that a node records is that of an edge of the
    graph. *)
Definition connectionsKnown (g : Graph) : Prop :=
  Forall (λ node,
      Forall (λ conn, ConnectionData.edge_id conn ∈ map CustomEdge.id (edges g))
        (CustomNodeData.connections (CustomNode.data node)))
    (nodes g).

(** A change that adds an element, removes one, or patches one without
    touching its id (as selecting it or moving it does). *)
Definition keepsId {A} (elemId : A → string) (c : ReactFlow.Change A) : Prop :=
  match c with
  | ReactFlow.Add _ | ReactFlow.Remove _ => True
  | ReactFlow.Modify _ patch => ∀ el, elemId (patch el) = elemId el
  | ReactFlow.Replace _ _ => False
  end.

Definition keepsEdgeId : EdgeChange → Prop := keepsId CustomEdge.id.

(** A list of patches that keep the id. *)
Definition patchesOnly {A} (elemId : A → string) (acc : list (ReactFlow.Change A)) : Prop :=
  Forall (λ c, match c with
               | ReactFlow.Modify _ patch => ∀ el, elemId (patch el) = elemId el
               | _ => False
               end) acc.

(** A list of changes headed by a removal. *)
Definition removalFirst {A} (acc : list (ReactFlow.Change A)) : Prop :=
  match acc with
  | ReactFlow.Remove _ :: _ => True
  | _ => False
  end.

(** *** Sessions of user actions *)

(** What the canvas reports through [onNodesChange] for what the user does
    to a node: it is removed, or selected, or moved.  Added and replaced
    nodes reach [onNodesChange] from [addNodes] and [updateNode] only,
    which the handlers call themselves. *)
Definition userNodeChange (c : NodeChange) : Prop :=
  match c with
  | ReactFlow.Remove _ => True
  | ReactFlow.Modify _ patch => ∀ node, CustomNode.id (patch node) = CustomNode.id node
  | ReactFlow.Add _ | ReactFlow.Replace _ _ => False
  end.

Definition userEvent (ev : Event) : Prop :=
  match ev with
  | NodesChange nodeChanges => Forall userNodeChange nodeChanges
  | _ => True
  end.

(** What an entry of the history was pushed for. *)
Inductive Pushed :=
| PushedNode (newNode : CustomNode.t)
| PushedEdge (newEdge : CustomEdge.t)
| PushedMove (id : string) (oldPosition newPosition : XYPosition.t).

Definition entryOf (memo : list CustomEdge.t) (d : Pushed) : Action :=
  match d with
  | PushedNode newNode => nodeAction memo newNode
  | PushedEdge newEdge => edgeAction newEdge
  | PushedMove id oldPosition newPosition => positionAction memo id oldPosition newPosition
  end.

Definition pushedNodeIds (ds : list Pushed) : list string :=
  omap (λ d, match d with
             | PushedNode newNode => Some (CustomNode.id newNode)
             | _ => None
             end) ds.

(** The id is a value of the counter below [limit], in decimal. *)
Definition issued (limit : Z) (i : string) : Prop :=
  ∃ k, i = pretty k ∧ (k < limit)%Z.

(** The ids of the nodes are distinct values the counter has passed, and
    so are the ids of the nodes that the history can bring back, none of
    which is on the canvas. *)
Definition idsInOrder (g : Graph) (counter : Z) (h : History.t)
    (memo : list CustomEdge.t) : Prop :=
  NoDup (map CustomNode.id (nodes g))
  ∧ Forall (issued counter) (map CustomNode.id (nodes g))
  ∧ ∃ made undone,
      History.past h = map (entryOf memo) made
      ∧ History.future h = map (entryOf memo) undone
      ∧ NoDup (pushedNodeIds (made ++ undone))
      ∧ Forall (issued counter) (pushedNodeIds (made ++ undone))
      ∧ Forall (λ i, i ∉ map CustomNode.id (nodes g)) (pushedNodeIds undone).

Definition editorInOrder (st : Editor) : Prop :=
  idsInOrder (graph st) (nodeId st) (history st) (memoEdges st).

(** ** The tutorial effect

    The first effect of [FlowEditor], which runs again whenever
    [availableNodes] or [tutorialStarted] changes.  What it reads and
    writes outside the component is the [resetTutorial] parameter of the
    URL, the key [shepherd-tour] of [localStorage] and the location of the
    window; [startTutorial] belongs to another module and is counted
    here. *)
Module Tutorial.
Record t := mk {
  resetTutorial : option string;
  localStorage : gmap string string;
  tutorialStarted : bool;
  (** the calls of [startTutorial] so far *)
  started : nat;
  (** [window.location.href] was set to the bare path *)
  redirected : bool
}.

(** [!localStorage.getItem(key)]: no item, or the empty text. *)
Definition noItem (key : string) (p : t) : bool :=
  match localStorage p !! key with
  | None => true
  | Some value => bool_decide (value = "")
  end.

(** The body of the effect. *)
Definition effect (availableNodes : list Block.t) (p : t) : t :=
  if bool_decide (resetTutorial p = Some "true") then
    mk (resetTutorial p) (delete "shepherd-tour" (localStorage p))
       (tutorialStarted p) (started p) true
  else
    let shouldStartTutorial := noItem "shepherd-tour" p in
    if shouldStartTutorial
       && bool_decide (0 < length availableNodes)%nat
       && negb (tutorialStarted p)
    then
      mk (resetTutorial p) (<["shepherd-tour" := "yes"]> (localStorage p))
         true (S (started p)) (redirected p)
    else p.

(** The effect run once for each value that [availableNodes] takes. *)
Definition effects (renders : list (list Block.t)) (p : t) : t :=
  foldl (λ p availableNodes, effect availableNodes p) p renders.
End Tutorial.

(** ** More of the small session *)

(** The key z alone, and the node that the second adder block becomes. *)
Definition plainZ : KeyboardEvent.t := KeyboardEvent.mk "z" false false false.
Definition secondAdder : CustomNode.t := newNodeOf demoEnv 2 "adder" "Adder" adderBlock.

(** The selected pair after Ctrl+C, and the same behind an open modal. *)
Definition copiedPair : Editor := step demoEnv selectedPair (KeyDown ctrlC).
Definition behindModal : Editor := setIsAnyModalOpen true copiedPair.

(** The wired pair after a run of the agent: both nodes are completed and
    show their output. *)
Definition ranPair : Editor :=
  onGraph
    (setNodes (map (λ node,
       let data := CustomNode.data node in
       CustomNode.with_data
         (CustomNodeData.mk
            (CustomNodeData.blockType data) (CustomNodeData.title data)
            (CustomNodeData.description data) (CustomNodeData.categories data)
            (CustomNodeData.inputSchema data) (CustomNodeData.outputSchema data)
            (CustomNodeData.hardcodedValues data) (CustomNodeData.connections data)
            true (Some "COMPLETED") (Some (JObj [("result", JNum 3)]))
            (CustomNodeData.block_id data) (CustomNodeData.isOutputStatic data))
         node)))
    wiredPair.

(** A page that is asked to reset the tutorial, and the page that loads
    after the redirect. *)
Definition resetPage : Tutorial.t :=
  Tutorial.mk (Some "true") {["shepherd-tour" := "yes"]} true 1 false.
Definition nextPage : Tutorial.t :=
  Tutorial.mk None (Tutorial.localStorage (Tutorial.effect [adderBlock] resetPage))
    false 1 false.

(** The wired pair with the edge alone selected. *)
Definition selectedWire : Editor :=
  step demoEnv wiredPair (EdgesChange [selectEdge "1_result_2_a" true]).

(** Two connections that differ: the source handle of the first is the
    handle named null, the second has no source handle. *)
Definition namedNull : Connection.t := Connection.mk "1" (Some "null") "2" (Some "a").
Definition noHandle : Connection.t := Connection.mk "1" None "2" (Some "a").


(** A session of user actions. *)
Definition userSession : list Event :=
  [AddBlock "adder" "Adder"; AddBlock "adder" "Adder"; Connect wire;
   NodesChange [selectNode "1" true; selectNode "2" true];
   KeyDown ctrlC; KeyDown ctrlV; ClickUndo; DeleteSelection; ClickRedo].

(** ** Proof steps used throughout *)

(** Settles the tests on the lengths of the added, removed and replaced
    parts of a batch. *)
Ltac decide_lengths :=
  repeat first
    [ rewrite bool_decide_true by (simpl; lia)
    | rewrite bool_decide_false by (simpl; lia) ].


(** Membership of a literal, or its absence, in a list of literals. *)
Ltac listed :=
  repeat first [ apply list_elem_of_here | apply list_elem_of_further ].
Ltac not_listed :=
  let H := fresh in
  intros H;
  repeat (apply elem_of_cons in H as [H|H]; [discriminate H|]);
  by apply elem_of_nil in H.

(** A literal without underscore. *)
Ltac no_underscore := simpl; repeat (split; [discriminate|]); exact I.

(** * Properties *)

(** ** Batches of changes *)

Section ChangeFacts.
Context {A : Type} (elemId : A → string).
Implicit Types (cs : list (ReactFlow.Change A)) (els items : list A).

Lemma changesFor_adds i items acc :
  ReactFlow.changesFor i (map ReactFlow.Add items) acc = acc.
Proof. revert acc. induction items; intros; simpl; auto. Qed.

Lemma added_adds items : ReactFlow.added (map ReactFlow.Add items) = items.
Proof. induction items; simpl; congruence. Qed.

Lemma removed_adds items : ReactFlow.removed (map (@ReactFlow.Add A) items) = [].
Proof. induction items; simpl; congruence. Qed.

Lemma replaced_adds items : ReactFlow.replaced (map ReactFlow.Add items) = [].
Proof. induction items; simpl; congruence. Qed.

Lemma added_removes ids : ReactFlow.added (map (@ReactFlow.Remove A) ids) = [].
Proof. induction ids; simpl; congruence. Qed.

Lemma removed_removes ids : ReactFlow.removed (map (@ReactFlow.Remove A) ids) = ids.
Proof. induction ids; simpl; congruence. Qed.

Lemma replaced_removes ids : ReactFlow.replaced (map (@ReactFlow.Remove A) ids) = [].
Proof. induction ids; simpl; congruence. Qed.

(** Adding items appends them. *)
Lemma applyChanges_adds items els :
  ReactFlow.applyChanges elemId (map ReactFlow.Add items) els = els ++ items.
Proof.
  unfold ReactFlow.applyChanges. rewrite added_adds. f_equal.
  induction els as [|el els IH]; [done|].
  cbn [omap list_omap]. by rewrite changesFor_adds, IH.
Qed.

Lemma changesFor_removes_in i ids acc :
  i ∈ ids →
  ∃ j, ReactFlow.changesFor i (map (@ReactFlow.Remove A) ids) acc = [ReactFlow.Remove j].
Proof.
  revert acc. induction ids as [|k ids IH]; intros acc Hin; [by apply elem_of_nil in Hin|].
  simpl. destruct (decide (i ∈ ids)) as [Hi|Hi]; [by apply IH|].
  apply elem_of_cons in Hin as [->|?]; [|done].
  rewrite bool_decide_true by done. exists k.
  clear IH. revert Hi. generalize [@ReactFlow.Remove A k]. 
  induction ids as [|k' ids IH]; intros acc' Hi; [done|].
  simpl. apply not_elem_of_cons in Hi as [Hne Hi].
  rewrite bool_decide_false by done. by apply IH.
Qed.

Lemma changesFor_removes_notin i ids acc :
  i ∉ ids → ReactFlow.changesFor i (map (@ReactFlow.Remove A) ids) acc = acc.
Proof.
  revert acc. induction ids as [|k ids IH]; intros acc Hi; [done|].
  simpl. apply not_elem_of_cons in Hi as [Hne Hi].
  rewrite bool_decide_false by done. by apply IH.
Qed.

(** Removing ids filters the elements that carry one of them. *)
Lemma applyChanges_removes ids els :
  ReactFlow.applyChanges elemId (map ReactFlow.Remove ids) els
  = filter (λ el, elemId el ∉ ids) els.
Proof.
  unfold ReactFlow.applyChanges. rewrite added_removes, app_nil_r.
  induction els as [|el els IH]; [done|].
  cbn [omap list_omap]. rewrite IH.
  destruct (decide (elemId el ∈ ids)) as [Hin|Hin].
  - destruct (changesFor_removes_in (elemId el) ids [] Hin) as [j ->].
    by rewrite filter_cons_False by auto.
  - rewrite changesFor_removes_notin by done.
    by rewrite filter_cons_True by done.
Qed.


(** Replacing under an id puts the item in the place of every element
    that carries the id. *)
Lemma applyChanges_replace item els :
  ReactFlow.applyChanges elemId [ReactFlow.Replace (elemId item) item] els
  = map (λ el, if bool_decide (elemId el = elemId item) then item else el) els.
Proof.
  unfold ReactFlow.applyChanges. simpl. rewrite app_nil_r.
  induction els as [|el els IH]; [done|].
  cbn [omap list_omap map]. rewrite IH. simpl.
  destruct (decide (elemId el = elemId item)) as [Heq|Hne].
  - by rewrite bool_decide_true, bool_decide_true by done.
  - by rewrite bool_decide_false, bool_decide_false by done.
Qed.

(** Items under ids that are not held are reported as additions; an item
    under an id that is held is reported as a replacement. *)
Lemma reported_fresh stored payload :
  Forall (λ item, elemId item ∉ map elemId stored) payload →
  ReactFlow.reported elemId stored payload = map ReactFlow.Add payload.
Proof.
  unfold ReactFlow.reported. induction 1 as [|item payload Hitem _ IH]; [done|].
  simpl. by rewrite bool_decide_false, IH by done.
Qed.

Lemma reported_held stored item :
  elemId item ∈ map elemId stored →
  ReactFlow.reported elemId stored [item] = [ReactFlow.Replace (elemId item) item].
Proof. intros Hin. unfold ReactFlow.reported. simpl. by rewrite bool_decide_true. Qed.

Lemma added_reported stored payload :
  ReactFlow.added (ReactFlow.reported elemId stored payload)
  = filter (λ item, elemId item ∉ map elemId stored) payload.
Proof.
  unfold ReactFlow.reported, ReactFlow.added.
  induction payload as [|item payload IH]; [done|].
  cbn [map omap list_omap]. rewrite IH.
  destruct (decide (elemId item ∈ map elemId stored)) as [Hin|Hnot].
  - rewrite bool_decide_true by done. by rewrite filter_cons_False by auto.
  - rewrite bool_decide_false by done. by rewrite filter_cons_True by done.
Qed.

Lemma removed_reported stored payload :
  ReactFlow.removed (ReactFlow.reported elemId stored payload) = [].
Proof.
  unfold ReactFlow.reported, ReactFlow.removed.
  induction payload as [|item payload IH]; [done|].
  cbn [map omap list_omap]. rewrite IH. by case_bool_decide.
Qed.

Lemma replaced_reported stored payload :
  ReactFlow.replaced (ReactFlow.reported elemId stored payload)
  = filter (λ item, elemId item ∈ map elemId stored) payload.
Proof.
  unfold ReactFlow.reported, ReactFlow.replaced.
  induction payload as [|item payload IH]; [done|].
  cbn [map omap list_omap]. rewrite IH.
  destruct (decide (elemId item ∈ map elemId stored)) as [Hin|Hnot].
  - rewrite bool_decide_true by done. by rewrite filter_cons_True by done.
  - rewrite bool_decide_false by done. by rewrite filter_cons_False by done.
Qed.

(** No element goes when items are put behind the others: each stays or
    is replaced, and the items under new ids follow. *)
Lemma changesFor_reported i stored payload : ∀ acc,
  is_Some (ReactFlow.applyTo (A:=A) i acc) →
  ∀ el, is_Some (ReactFlow.applyTo el
                   (ReactFlow.changesFor (elemId el)
                      (ReactFlow.reported elemId stored payload) acc)).
Proof.
  unfold ReactFlow.reported.
  induction payload as [|item payload IH]; intros acc Hacc el.
  - simpl. destruct acc as [|[] ?]; simpl in *;
      try (by apply is_Some_None in Hacc); eauto.
  - simpl. case_bool_decide; simpl.
    + apply IH. case_bool_decide; [simpl; eauto|done].
    + by apply IH.
Qed.

Lemma applyChanges_reported stored payload els :
  ∃ h, ReactFlow.applyChanges elemId (ReactFlow.reported elemId stored payload) els
       = map h els ++ filter (λ item, elemId item ∉ map elemId stored) payload.
Proof.
  unfold ReactFlow.applyChanges. rewrite added_reported.
  exists (λ el, default el
                  (ReactFlow.applyTo el
                     (ReactFlow.changesFor (elemId el)
                        (ReactFlow.reported elemId stored payload) []))).
  f_equal. induction els as [|el els IH]; [done|].
  cbn [omap list_omap map]. rewrite IH.
  destruct (changesFor_reported el stored payload [] (ltac:(simpl; eauto)) el)
    as [el' ->].
  reflexivity.
Qed.
End ChangeFacts.

(** ** The threshold of a logged move *)

Lemma SFcompare_antisym x y :
  SFcompare y x = option_map CompOpp (SFcompare x y).
Proof.
  destruct x as [sx|sx| |sx mx ex], y as [sy|sy| |sy my ey]; simpl;
    try reflexivity; try (destruct sx; reflexivity); try (destruct sy; reflexivity);
    try (destruct sx, sy; reflexivity).
  change (Pos.compare_cont Eq) with Pos.compare.
  destruct sx, sy; try reflexivity.
  - rewrite (Z.compare_antisym ey ex). destruct (ey ?= ex)%Z; simpl; try reflexivity.
    rewrite (Pos.compare_antisym my mx). destruct (my ?= mx)%positive; reflexivity.
  - rewrite (Z.compare_antisym ey ex). destruct (ey ?= ex)%Z; simpl; try reflexivity.
    rewrite (Pos.compare_antisym my mx). destruct (my ?= mx)%positive; reflexivity.
Qed.

(** A double that is at most another is not greater than it. *)
Lemma leb_not_ltb (a b : float) : (a <=? b)%float = true → (b <? a)%float = false.
Proof.
  rewrite leb_spec, ltb_spec. unfold SFleb, SFltb.
  rewrite (SFcompare_antisym (Prim2SF a) (Prim2SF b)).
  destruct (SFcompare (Prim2SF a) (Prim2SF b)) as [[]|]; simpl; congruence.
Qed.

(** A squared distance above 2500 is a distance above 50. *)
Lemma euclideanDistance_beyond p q :
  (2500 < squaredEuclideanDistance p q)%Q → (50 < euclideanDistance p q)%R.
Proof.
  intros Hgt. unfold euclideanDistance.
  assert (Hsq : R_sqrt.sqrt (50 * 50) = 50%R) by (apply sqrt_square; lra).
  apply Qlt_Rlt in Hgt.
  assert (H2500 : Q2R 2500 = (50 * 50)%R) by (unfold Q2R; simpl; lra).
  rewrite H2500 in Hgt.
  rewrite <- Hsq at 1. apply sqrt_lt_1_alt. lra.
Qed.

(** ** What the library calls do to the graph *)

Lemma filter_all {A} (P : A → Prop) `{∀ x, Decision (P x)} (l : list A) :
  Forall P l → filter P l = l.
Proof.
  induction 1 as [|a l Ha _ IH]; [done|].
  by rewrite filter_cons_True, IH.
Qed.

Lemma filter_none {A} (P : A → Prop) `{∀ x, Decision (P x)} (l : list A) :
  Forall (λ a, ¬ P a) l → filter P l = [].
Proof.
  induction 1 as [|a l Ha _ IH]; [done|].
  by rewrite filter_cons_False.
Qed.

Lemma clearedNode_idemp node : clearedNode (clearedNode node) = clearedNode node.
Proof. reflexivity. Qed.

Lemma clear_idemp g :
  clearNodesStatusAndOutput (clearNodesStatusAndOutput g) = clearNodesStatusAndOutput g.
Proof.
  unfold clearNodesStatusAndOutput, setNodes. simpl. f_equal.
  rewrite map_map. apply map_ext. intros; apply clearedNode_idemp.
Qed.

Lemma onNodesChange_adds memo ns g :
  onNodesChange memo (map ReactFlow.Add ns) g = mkGraph (nodes g ++ ns) (edges g).
Proof.
  unfold onNodesChange. rewrite removed_adds. simpl.
  unfold setNodes, applyNodeChanges. by rewrite applyChanges_adds.
Qed.

Lemma addNodes_spec memo ns g : addNodes memo ns g = mkGraph (nodes g ++ ns) (edges g).
Proof. apply onNodesChange_adds. Qed.

Lemma onEdgesChange_adds e es g :
  onEdgesChange (map ReactFlow.Add (e :: es)) g
  = mkGraph (map (connectedBy (e :: es)) (nodes g)) (edges g ++ e :: es).
Proof.
  unfold onEdgesChange.
  rewrite removed_adds, replaced_adds, added_adds.
  decide_lengths.
  unfold setNodes, setEdges, applyEdgeChanges. simpl nodes. simpl edges.
  rewrite (applyChanges_adds CustomEdge.id (e :: es)). f_equal.
  apply map_ext. intros node. unfold connectedBy. do 3 f_equal.
  apply filter_all, Forall_forall. intros conn _. apply not_elem_of_nil.
Qed.


(** Edges under ids that are not in use are appended, and every node
    records them. *)
Lemma addEdges_cons e es g :
  Forall (λ edge, CustomEdge.id edge ∉ map CustomEdge.id (edges g)) (e :: es) →
  addEdges (e :: es) g
  = mkGraph (map (connectedBy (e :: es)) (nodes g)) (edges g ++ e :: es).
Proof.
  intros Hfresh. unfold addEdges. rewrite reported_fresh by done.
  apply onEdgesChange_adds.
Qed.

(** The record of [e] alone, in place of the connections of a node. *)
Lemma onEdgesChange_replaces e g :
  onEdgesChange [ReactFlow.Replace (CustomEdge.id e) e] g
  = mkGraph
      (map (λ node,
              clearedNode
                (CustomNode.with_data
                   (CustomNodeData.with_connections [connectionOf e]
                      (CustomNode.data node)) node))
           (nodes g))
      (map (λ edge, if bool_decide (CustomEdge.id edge = CustomEdge.id e)
                    then e else edge) (edges g)).
Proof.
  unfold onEdgesChange. simpl. decide_lengths.
  unfold clearNodesStatusAndOutput, setNodes, setEdges, applyEdgeChanges.
  simpl nodes. simpl edges.
  rewrite (applyChanges_replace CustomEdge.id e), map_map. reflexivity.
Qed.

(** An edge under an id that is in use takes the place of the edges that
    carry the id; every node is left with the record of this edge alone,
    and loses its status. *)
Lemma addEdges_held e g :
  CustomEdge.id e ∈ map CustomEdge.id (edges g) →
  addEdges [e] g
  = mkGraph
      (map (λ node,
              clearedNode
                (CustomNode.with_data
                   (CustomNodeData.with_connections [connectionOf e]
                      (CustomNode.data node)) node))
           (nodes g))
      (map (λ edge, if bool_decide (CustomEdge.id edge = CustomEdge.id e)
                    then e else edge) (edges g)).
Proof.
  intros Hin. unfold addEdges. rewrite reported_held by done.
  apply onEdgesChange_replaces.
Qed.

(** Removing edges by id: the edges go, every node forgets the connection
    it recorded for them and loses its status. *)
Lemma onEdgesChange_removes i ids g :
  onEdgesChange (map ReactFlow.Remove (i :: ids)) g
  = mkGraph (map (λ node, clearedNode (disconnectedFrom (i :: ids) node)) (nodes g))
            (filter (λ edge, CustomEdge.id edge ∉ i :: ids) (edges g)).
Proof.
  unfold onEdgesChange.
  rewrite removed_removes, replaced_removes, added_removes.
  decide_lengths.
  unfold clearNodesStatusAndOutput, setNodes, setEdges, applyEdgeChanges.
  simpl nodes. simpl edges.
  rewrite (applyChanges_removes CustomEdge.id (i :: ids)), map_map. f_equal.
  apply map_ext. intros node. unfold disconnectedFrom. by rewrite app_nil_r.
Qed.

(** ** Adding a block *)

Lemma find_block_None blockId (blocks : list Block.t) :
  blockId ∉ map Block.id blocks →
  List.find (λ node, bool_decide (Block.id node = blockId)) blocks = None.
Proof.
  induction blocks as [|b blocks IH]; [done|].
  simpl. intros [Hne Hnot]%not_elem_of_cons.
  rewrite bool_decide_false by done. by apply IH.
Qed.

Lemma find_block_Some blockId (blocks : list Block.t) :
  blockId ∈ map Block.id blocks →
  ∃ nodeSchema,
    List.find (λ node, bool_decide (Block.id node = blockId)) blocks = Some nodeSchema
    ∧ nodeSchema ∈ blocks ∧ Block.id nodeSchema = blockId.
Proof.
  induction blocks as [|b blocks IH]; [by intros ?%elem_of_nil|].
  simpl. intros Hin. destruct (decide (Block.id b = blockId)) as [Heq|Hne].
  - exists b. rewrite bool_decide_true by done. split_and!; [done| |done].
    apply elem_of_cons; by left.
  - rewrite bool_decide_false by done.
    apply elem_of_cons in Hin as [?|Hin]; [congruence|].
    destruct (IH Hin) as (nodeSchema & ? & ? & ?). exists nodeSchema.
    split_and!; [done| |done]. apply elem_of_cons; by right.
Qed.

Lemma addNode_found env blockId nodeType st nodeSchema :
  List.find (λ node, bool_decide (Block.id node = blockId)) (availableNodes st)
    = Some nodeSchema →
  let newNode := newNodeOf env (nodeId st) blockId nodeType nodeSchema in
  addNode env blockId nodeType st
  = mkEditor
      (mkGraph (map clearedNode (nodes (graph st)) ++ [newNode]) (edges (graph st)))
      (availableNodes st) (nodeId st + 1) (copiedNodes st) (copiedEdges st)
      (isAnyModalOpen st) (initialPositionRef st) (isDragging st)
      (History.push (nodeAction (memoEdges st) newNode) (history st))
      (memoEdges st).
Proof.
  intros Hfind newNode. unfold addNode. rewrite Hfind. fold newNode.
  unfold onGraph, withGraph, setNodeId, withHistory. simpl.
  rewrite addNodes_spec. unfold clearNodesStatusAndOutput, setNodes. simpl.
  by rewrite map_app.
Qed.

(** C8.  [addNode] with a block id that no entry of [availableNodes]
    carries changes nothing: the graph, the counter, the history and every
    other part of the editor state are as before. *)
Theorem addNode_unknown_block env blockId nodeType st :
  blockId ∉ map Block.id (availableNodes st) →
  addNode env blockId nodeType st = st.
Proof. intros Hnot. unfold addNode. by rewrite find_block_None. Qed.

(** C5.  [addNode] with the id of an available block appends exactly one
    node.  Its id is the counter in decimal, its data carries the
    description, the categories, both schemas and the static-output flag of
    the block, its hard-coded values and connections are empty and it has
    no status.  The nodes that were there stay, with their status
    cleared. *)
Theorem addNode_known_block env blockId nodeType st :
  blockId ∈ map Block.id (availableNodes st) →
  ∃ nodeSchema newNode,
    nodeSchema ∈ availableNodes st ∧ Block.id nodeSchema = blockId
    ∧ graph (addNode env blockId nodeType st)
      = mkGraph (map clearedNode (nodes (graph st)) ++ [newNode]) (edges (graph st))
    ∧ CustomNode.id newNode = pretty (nodeId st)
    ∧ CustomNodeData.inputSchema (CustomNode.data newNode) = Block.inputSchema nodeSchema
    ∧ CustomNodeData.outputSchema (CustomNode.data newNode) = Block.outputSchema nodeSchema
    ∧ CustomNodeData.description (CustomNode.data newNode) = Block.description nodeSchema
    ∧ CustomNodeData.categories (CustomNode.data newNode) = Block.categories nodeSchema
    ∧ CustomNodeData.isOutputStatic (CustomNode.data newNode) = Block.staticOutput nodeSchema
    ∧ CustomNodeData.hardcodedValues (CustomNode.data newNode) = ∅
    ∧ CustomNodeData.connections (CustomNode.data newNode) = []
    ∧ CustomNodeData.status (CustomNode.data newNode) = None.
Proof.
  intros Hin. destruct (find_block_Some _ _ Hin) as (nodeSchema & Hfind & Hmem & Hid).
  exists nodeSchema, (newNodeOf env (nodeId st) blockId nodeType nodeSchema).
  rewrite (addNode_found _ _ _ _ _ Hfind). by split_and!.
Qed.

(** ** Connecting two handles *)

Lemma onConnect_found env connection st sourceNode :
  getNode (Connection.source connection) (graph st) = Some sourceNode →
  let newEdge := newEdgeOf env connection sourceNode in
  onConnect env connection st
  = Some (mkEditor
      (clearNodesStatusAndOutput (addEdges [newEdge] (graph st)))
      (availableNodes st) (nodeId st) (copiedNodes st) (copiedEdges st)
      (isAnyModalOpen st) (initialPositionRef st) (isDragging st)
      (History.push (edgeAction newEdge) (history st))
      (memoEdges st)).
Proof. intros Hget newEdge. unfold onConnect. by rewrite Hget. Qed.


Lemma clear_edges g : edges (clearNodesStatusAndOutput g) = edges g.
Proof. reflexivity. Qed.

Lemma onConnect_inv env connection st st' :
  onConnect env connection st = Some st' →
  ∃ sourceNode,
    getNode (Connection.source connection) (graph st) = Some sourceNode
    ∧ graph st'
      = clearNodesStatusAndOutput
          (addEdges [newEdgeOf env connection sourceNode] (graph st)).
Proof.
  intros Hconn.
  destruct (getNode (Connection.source connection) (graph st)) as [sourceNode|] eqn:Hget;
    [|by unfold onConnect in Hconn; rewrite Hget in Hconn].
  rewrite (onConnect_found _ _ _ _ Hget) in Hconn. injection Hconn as <-.
  by exists sourceNode.
Qed.

(** The edge of an accepted connection is in the graph afterwards. *)
Lemma onConnect_edge_in env connection st st' :
  onConnect env connection st = Some st' →
  ∃ sourceNode,
    getNode (Connection.source connection) (graph st) = Some sourceNode
    ∧ newEdgeOf env connection sourceNode ∈ edges (graph st').
Proof.
  intros (sourceNode & Hget & ->)%onConnect_inv. exists sourceNode.
  split; [done|]. rewrite clear_edges.
  destruct (decide (formatEdgeID (inr connection)
                    ∈ map CustomEdge.id (edges (graph st)))) as [Hheld|Hfresh].
  - rewrite addEdges_held by done. cbn [edges].
    apply list_elem_of_fmap in Hheld as (edge & Heq & Hedge).
    apply list_elem_of_fmap. exists edge. split; [|done].
    by rewrite bool_decide_true by done.
  - rewrite addEdges_cons by (by apply Forall_singleton). cbn [edges].
    apply elem_of_app. right. by apply list_elem_of_singleton.
Qed.

(** C4, as the code has it.  A connection that [onConnect] accepts leaves
    the graph with an edge that joins the source handle of the connection
    to its target handle and whose id is the four parts of the connection
    joined by underscores.  When no edge carries this id the edge is
    appended: exactly one edge is added.  When an edge carries it, the new
    edge takes its place and none is added.  Connecting the same handles
    again, in whatever state, gives the same id, and right after the first
    connection it leaves the number of edges as it is. *)
Theorem onConnect_adds_one_edge env connection st st' :
  onConnect env connection st = Some st' →
  ∃ newEdge,
    (formatEdgeID (inr connection) ∉ map CustomEdge.id (edges (graph st)) →
     edges (graph st') = edges (graph st) ++ [newEdge])
    ∧ (formatEdgeID (inr connection) ∈ map CustomEdge.id (edges (graph st)) →
       edges (graph st')
       = map (λ edge, if bool_decide (CustomEdge.id edge = CustomEdge.id newEdge)
                      then newEdge else edge) (edges (graph st)))
    ∧ newEdge ∈ edges (graph st')
    ∧ CustomEdge.source newEdge = Connection.source connection
    ∧ CustomEdge.sourceHandle newEdge = Connection.sourceHandle connection
    ∧ CustomEdge.target newEdge = Connection.target connection
    ∧ CustomEdge.targetHandle newEdge = Connection.targetHandle connection
    ∧ CustomEdge.id newEdge
      = Connection.source connection +:+ "_"
        +:+ handleText (Connection.sourceHandle connection) +:+ "_"
        +:+ Connection.target connection +:+ "_"
        +:+ handleText (Connection.targetHandle connection)
    ∧ (∀ env2 st2 st2',
         onConnect env2 connection st2 = Some st2' →
         ∃ again,
           again ∈ edges (graph st2') ∧ CustomEdge.id again = CustomEdge.id newEdge)
    ∧ (∀ env2 st'',
         onConnect env2 connection st' = Some st'' →
         length (edges (graph st'')) = length (edges (graph st'))).
Proof.
  intros Hconn.
  destruct (onConnect_edge_in _ _ _ _ Hconn) as (sourceNode & Hget & Hin).
  destruct (onConnect_inv _ _ _ _ Hconn) as (sourceNode' & Hget' & Hgraph).
  rewrite Hget in Hget'. injection Hget' as <-.
  exists (newEdgeOf env connection sourceNode).
  split_and!; try reflexivity.
  - intros Hfresh. rewrite Hgraph, clear_edges.
    by rewrite addEdges_cons by (by apply Forall_singleton).
  - intros Hheld. rewrite Hgraph, clear_edges. by rewrite addEdges_held by done.
  - exact Hin.
  - intros env2 st2 st2' Hconn2.
    destruct (onConnect_edge_in _ _ _ _ Hconn2) as (sourceNode2 & _ & Hin2).
    by exists (newEdgeOf env2 connection sourceNode2).
  - intros env2 st'' Hconn2.
    destruct (onConnect_inv _ _ _ _ Hconn2) as (sourceNode2 & _ & ->).
    rewrite clear_edges, addEdges_held; [cbn [edges]; by rewrite length_map|].
    apply list_elem_of_fmap. by exists (newEdgeOf env connection sourceNode).
Qed.

(** ** Dragging a node *)

(** While a node is dragged the library reports its positions through
    [onNodesChange]; this touches the graph only. *)
Lemma run_NodesChange env st batches :
  ∃ g, run env st (NodesChange <$> batches) = withGraph g st.
Proof.
  revert st. induction batches as [|cs batches IH]; intros st.
  - exists (graph st). by destruct st.
  - destruct (IH (step env st (NodesChange cs))) as [g Hg].
    exists g. change (run env st (NodesChange <$> cs :: batches))
      with (run env (step env st (NodesChange cs)) (NodesChange <$> batches)).
    by rewrite Hg.
Qed.

Lemma drag_completed env node node' batches st :
  CustomNode.id node' = CustomNode.id node →
  let dragging := run env (onNodeDragStart node st) (NodesChange <$> batches) in
  onNodeDragEnd (Some node') dragging
  = mkEditor (graph dragging) (availableNodes st) (nodeId st) (copiedNodes st)
      (copiedEdges st) (isAnyModalOpen st)
      (delete (CustomNode.id node)
         (<[CustomNode.id node := CustomNode.position node]> (initialPositionRef st)))
      false
      (if movedEnough (CustomNode.position node) (CustomNode.position node')
       then History.push
              (positionAction (memoEdges st) (CustomNode.id node)
                 (CustomNode.position node) (CustomNode.position node'))
              (history st)
       else history st)
      (memoEdges st).
Proof.
  intros Hid dragging. subst dragging.
  destruct (run_NodesChange env (onNodeDragStart node st) batches) as [g ->].
  unfold onNodeDragEnd, onNodeDragStart. simpl. rewrite Hid.
  rewrite lookup_insert_eq.
  by destruct (movedEnough _ _).
Qed.

Lemma push_neq action h : History.push action h ≠ h.
Proof.
  intros Heq. apply (f_equal (λ h, length (History.past h))) in Heq.
  simpl in Heq. lia.
Qed.

(** C3, as the code has it.  A completed drag of a node (a drag start, the
    position changes the library reports on the way, a drag end on the
    same node) pushes an entry exactly when the distance that the code
    computes between the position at drag start and the position at drag
    end is greater than 50: the square root of the sum of the squares of
    the two coordinate differences, in double precision, where the
    differences, the squares, the sum and the root are each rounded.  A
    drag whose computed distance is 50 or less, or is not a number,
    leaves the history as it was. *)
Theorem drag_logged_iff_beyond_threshold env node node' batches st :
  CustomNode.id node' = CustomNode.id node →
  let dragging := run env (onNodeDragStart node st) (NodesChange <$> batches) in
  let st' := onNodeDragEnd (Some node') dragging in
  let dx :=
    (XYPosition.x (CustomNode.position node')
     - XYPosition.x (CustomNode.position node))%float in
  let dy :=
    (XYPosition.y (CustomNode.position node')
     - XYPosition.y (CustomNode.position node))%float in
  let d := PrimFloat.sqrt (dx * dx + dy * dy) in
  ((50 <? d)%float = true ↔ ∃ action, history st' = History.push action (history st))
  ∧ ((d <=? 50)%float = true → history st' = history st)
  ∧ ((50 <? d)%float = false → history st' = history st).
Proof.
  intros Hid dragging st' dx dy d. subst st' dragging.
  rewrite (drag_completed env _ _ batches _ Hid). cbn [history].
  change (movedEnough (CustomNode.position node) (CustomNode.position node'))
    with (50 <? d)%float.
  destruct (50 <? d)%float eqn:Hmoved.
  - split_and!; [split; eauto|intros Hle; by rewrite (leb_not_ltb _ _ Hle) in Hmoved|done].
  - split_and!; [split; [done|]|done..].
    intros [action Heq]. symmetry in Heq. by apply push_neq in Heq.
Qed.

(** C2, as the code has it.  A completed drag of a node over a computed
    distance greater than 50 pushes an entry of type UPDATE_NODE_POSITION
    whose payload names the node, its position at drag start as the old
    position and its position at drag end as the new one. *)
Theorem drag_beyond_threshold_logged env node node' batches st :
  CustomNode.id node' = CustomNode.id node →
  let dx :=
    (XYPosition.x (CustomNode.position node')
     - XYPosition.x (CustomNode.position node))%float in
  let dy :=
    (XYPosition.y (CustomNode.position node')
     - XYPosition.y (CustomNode.position node))%float in
  (50 <? PrimFloat.sqrt (dx * dx + dy * dy))%float = true →
  let dragging := run env (onNodeDragStart node st) (NodesChange <$> batches) in
  ∃ action,
    history (onNodeDragEnd (Some node') dragging) = History.push action (history st)
    ∧ type action = "UPDATE_NODE_POSITION"
    ∧ payload action
      = PositionPayload (CustomNode.id node) (CustomNode.position node)
          (CustomNode.position node').
Proof.
  intros Hid dx dy Hfar dragging. subst dragging.
  rewrite (drag_completed env _ _ batches _ Hid). cbn [history].
  change (movedEnough (CustomNode.position node) (CustomNode.position node'))
    with (50 <? PrimFloat.sqrt (dx * dx + dy * dy))%float.
  rewrite Hfar. eauto.
Qed.

(** ** What reaches the history *)

Lemma handleUndo_history st :
  history (handleUndo st) = (History.undo (history st) (graph st)).1.
Proof. unfold handleUndo. by destruct (History.undo _ _). Qed.

Lemma handleRedo_history st :
  history (handleRedo st) = (History.redo (history st) (graph st)).1.
Proof. unfold handleRedo. by destruct (History.redo _ _). Qed.

Lemma handleKeyDown_history env event st :
  history (handleKeyDown env event st) = history st.
Proof.
  unfold handleKeyDown, pasteClipboard, copySelection.
  repeat case_match; reflexivity.
Qed.

Lemma undoRedoKeyDown_cases env event st :
  undoRedoKeyDown env event st = st
  ∨ undoRedoKeyDown env event st = handleUndo st
  ∨ undoRedoKeyDown env event st = handleRedo st.
Proof.
  unfold undoRedoKeyDown.
  destruct (bool_decide (KeyboardEvent.key event = "z")) eqn:Hz.
  - apply bool_decide_eq_true in Hz. rewrite Hz.
    rewrite !(bool_decide_false ("z" = _)) by discriminate.
    destruct (if Env.isMac env then _ else _), (KeyboardEvent.shiftKey event);
      simpl; auto.
  - rewrite andb_false_r.
    destruct (_ && (_ || _)); auto.
Qed.

Lemma undo_entries h g :
  History.entries (History.undo h g).1 ≡ₚ History.entries h.
Proof.
  destruct h as [[|a made] undone]; [done|].
  unfold History.undo, History.entries. simpl.
  by rewrite Permutation_middle.
Qed.

Lemma redo_entries h g :
  History.entries (History.redo h g).1 ≡ₚ History.entries h.
Proof.
  destruct h as [made [|a undone]]; [done|].
  unfold History.redo, History.entries. simpl.
  by rewrite Permutation_middle.
Qed.

(** What one event does to the history: a drag end, a connection or an
    added block pushes at most one entry, of one of the three types; undo
    and redo, by button or by key, move an entry between the two stacks;
    every other event leaves the history alone. *)
Lemma step_history env st ev :
  let h := history st in
  let h' := history (step env st ev) in
  match ev with
  | NodeDragStop _ | Connect _ | AddBlock _ _ =>
      h' = h ∨ ∃ action, h' = History.push action h ∧ type action ∈ entryTypes
  | ClickUndo | ClickRedo | KeyDown _ =>
      h' = h
      ∨ h' = (History.undo h (graph st)).1
      ∨ h' = (History.redo h (graph st)).1
  | NodeDragStart _ | NodesChange _ | EdgesChange _ | NodesDelete
  | ModalOpen _ | DeleteSelection => h' = h
  end.
Proof.
  destruct ev as [node|[node|]|cs|cs| |c|b t| | |event|b| ]; simpl; try reflexivity.
  - unfold onNodeDragEnd. simpl.
    destruct (initialPositionRef st !! CustomNode.id node); [|by left].
    destruct (movedEnough _ _); [|by left].
    right. eexists. split; [reflexivity|]. simpl. set_solver.
  - by left.
  - unfold onConnect. destruct (getNode _ _); [|by left].
    right. eexists. split; [reflexivity|]. simpl. set_solver.
  - unfold addNode. destruct (List.find _ _); [|by left].
    right. eexists. split; [reflexivity|]. simpl. set_solver.
  - right; left. apply handleUndo_history.
  - right; right. apply handleRedo_history.
  - rewrite handleKeyDown_history.
    destruct (undoRedoKeyDown_cases env event st) as [->| [->| ->]].
    + by left.
    + right; left. apply handleUndo_history.
    + right; right. apply handleRedo_history.
Qed.

Lemma step_entry_types env st ev :
  Forall (λ action, type action ∈ entryTypes) (History.entries (history st)) →
  Forall (λ action, type action ∈ entryTypes)
    (History.entries (history (step env st ev))).
Proof.
  intros Hinv. pose proof (step_history env st ev) as Hstep. simpl in Hstep.
  assert (Hpush : ∀ action,
    type action ∈ entryTypes →
    Forall (λ action, type action ∈ entryTypes)
      (History.entries (History.push action (history st)))).
  { intros action Hty. unfold History.entries, History.push. simpl.
    rewrite app_nil_r. constructor; [done|].
    unfold History.entries in Hinv. by apply Forall_app in Hinv as [? _]. }
  assert (Hundo : Forall (λ action, type action ∈ entryTypes)
      (History.entries (History.undo (history st) (graph st)).1))
    by (by rewrite undo_entries).
  assert (Hredo : Forall (λ action, type action ∈ entryTypes)
      (History.entries (History.redo (history st) (graph st)).1))
    by (by rewrite redo_entries).
  destruct ev; try (by rewrite Hstep);
    try (by destruct Hstep as [->|(action & -> & Hty)]; auto);
    by destruct Hstep as [->|[->| ->]].
Qed.

(** C6.  Only a drag end, a connection and an added block push onto the
    history, one entry at most and of type ADD_NODE, ADD_EDGE or
    UPDATE_NODE_POSITION; undo and redo move entries between the two
    stacks; changes of nodes and edges (deletions among them), the delete
    key, copy and paste and the clearing of status leave the history
    untouched.  So every entry of the history of an editor, however it was
    used since it was mounted, has one of the three types. *)
Theorem history_entry_types env :
  (∀ st ev,
     let h := history st in
     let h' := history (step env st ev) in
     match ev with
     | NodeDragStop _ | Connect _ | AddBlock _ _ =>
         h' = h ∨ ∃ action, h' = History.push action h ∧ type action ∈ entryTypes
     | ClickUndo | ClickRedo | KeyDown _ =>
         h' = h
         ∨ h' = (History.undo h (graph st)).1
         ∨ h' = (History.redo h (graph st)).1
     | NodeDragStart _ | NodesChange _ | EdgesChange _ | NodesDelete
     | ModalOpen _ | DeleteSelection => h' = h
     end)
  ∧ (∀ st, history (pasteClipboard env st) = history st)
  ∧ (∀ st, history (onGraph clearNodesStatusAndOutput st) = history st)
  ∧ (∀ blocks events,
       Forall (λ action, type action ∈ entryTypes)
         (History.entries (history (run env (mounted blocks) events)))).
Proof.
  split_and!.
  - apply step_history.
  - intros st. unfold pasteClipboard. by case_match.
  - done.
  - intros blocks events. unfold run.
    cut (∀ st, Forall (λ action, type action ∈ entryTypes) (History.entries (history st)) →
               Forall (λ action, type action ∈ entryTypes)
                 (History.entries (history (foldl (step env) st events)))).
    { intros Hcut. apply Hcut. constructor. }
    induction events as [|ev events IH]; intros st Hinv; [done|].
    simpl. apply IH. by apply step_entry_types.
Qed.

(** ** Edges of removed nodes *)

Lemma filter_ext_elem {A} (P Q : A → Prop)
    `{∀ x, Decision (P x)} `{∀ x, Decision (Q x)} (l : list A) :
  (∀ x, x ∈ l → P x ↔ Q x) → filter P l = filter Q l.
Proof.
  induction l as [|a l IH]; intros Hext; [done|].
  assert (Hl : ∀ x, x ∈ l → P x ↔ Q x)
    by (intros x Hx; apply Hext, elem_of_cons; by right).
  destruct (decide (P a)) as [HP|HP].
  - assert (HQ : Q a) by (apply Hext; [apply elem_of_cons; by left|done]).
    rewrite (filter_cons_True P), (filter_cons_True Q) by done. by rewrite IH.
  - assert (HQ : ¬ Q a)
      by (intros HQ; apply HP, Hext; [apply elem_of_cons; by left|done]).
    rewrite (filter_cons_False P), (filter_cons_False Q) by done. by rewrite IH.
Qed.

Lemma filter_nil_Forall {A} (P : A → Prop) `{∀ x, Decision (P x)} (l : list A) :
  filter P l = [] → Forall (λ a, ¬ P a) l.
Proof.
  intros Hnil. apply Forall_forall. intros a Ha HP.
  assert (Hin : a ∈ filter P l) by (by apply list_elem_of_filter).
  rewrite Hnil in Hin. by apply elem_of_nil in Hin.
Qed.

(** [deleteElements({ edges })] takes the edges with a listed id out of the
    graph. *)
Lemma deleteEdges_edges ids g :
  edges (deleteEdges ids g) = filter (λ edge, CustomEdge.id edge ∉ ids) (edges g).
Proof.
  unfold deleteEdges. case_bool_decide as Hmatch.
  - symmetry. apply filter_all. apply filter_nil_Forall in Hmatch.
    by eapply Forall_impl.
  - destruct (filter _ (edges g)) as [|e matching] eqn:Hfilter; [done|].
    rewrite <- (map_map CustomEdge.id ReactFlow.Remove).
    change (map CustomEdge.id (e :: matching))
      with (CustomEdge.id e :: map CustomEdge.id matching).
    rewrite onEdgesChange_removes. simpl.
    apply filter_ext_elem. intros edge Hedge.
    change (CustomEdge.id e :: map CustomEdge.id matching)
      with (map CustomEdge.id (e :: matching)).
    rewrite <- Hfilter. split.
    + intros Hnot Hin. apply Hnot, list_elem_of_fmap. exists edge.
      split; [done|]. by apply list_elem_of_filter.
    + intros Hnot (edge' & Heq & Hin')%list_elem_of_fmap.
      apply list_elem_of_filter in Hin' as [? _]. congruence.
Qed.

Lemma onNodesChange_edges memo nodeChanges g edge :
  edge ∈ edges (onNodesChange memo nodeChanges g) →
  edge ∈ edges g
  ∧ ∀ nodeID stale,
      nodeID ∈ ReactFlow.removed nodeChanges →
      stale ∈ memo →
      nodeID ∈ [CustomEdge.source stale; CustomEdge.target stale] →
      CustomEdge.id edge ≠ CustomEdge.id stale.
Proof.
  unfold onNodesChange.
  change (edges g) with (edges (setNodes (applyNodeChanges nodeChanges) g)).
  generalize (setNodes (applyNodeChanges nodeChanges) g). clear g.
  induction (ReactFlow.removed nodeChanges) as [|nodeID ids IH]; intros g Hin.
  - split; [done|]. intros ? ? []%elem_of_nil.
  - simpl in Hin. apply IH in Hin as [Hin Hrest].
    rewrite deleteEdges_edges in Hin. apply list_elem_of_filter in Hin as [Hid Hin].
    split; [done|]. intros nodeID' stale [->|?]%elem_of_cons Hstale Hconn; [|eauto].
    intros Heq. apply Hid, list_elem_of_fmap. exists stale. split; [done|].
    by apply list_elem_of_filter.
Qed.

(** When the [edges] array inside [onNodesChange] is the current one, no
    edge that survives the batch is attached to a removed node. *)
Lemma onNodesChange_current_edges nodeChanges g edge :
  edge ∈ edges (onNodesChange (edges g) nodeChanges g) →
  (CustomEdge.source edge ∉ ReactFlow.removed nodeChanges)
  ∧ (CustomEdge.target edge ∉ ReactFlow.removed nodeChanges).
Proof.
  intros [Hin Hids]%onNodesChange_edges.
  split; intros Hrem; (eapply (Hids _ edge Hrem Hin); [set_solver|done]).
Qed.

(** No event renews the [edges] array inside [onNodesChange]. *)
Lemma step_memoEdges env st ev : memoEdges (step env st ev) = memoEdges st.
Proof.
  destruct ev as [node|[node|]|cs|cs| |c|b t| | |event|b| ]; simpl; try reflexivity.
  - unfold onNodeDragEnd. simpl. by repeat case_match.
  - unfold onConnect. by case_match.
  - unfold addNode. by case_match.
  - unfold handleUndo. by destruct (History.undo _ _).
  - unfold handleRedo. by destruct (History.redo _ _).
  - transitivity (memoEdges (undoRedoKeyDown env event st)).
    + unfold handleKeyDown, pasteClipboard, copySelection. by repeat case_match.
    + unfold undoRedoKeyDown, handleUndo, handleRedo.
      repeat case_match; simplify_eq; reflexivity.
Qed.

(** ** Copy and paste *)

Lemma undoRedoKeyDown_other env event st :
  KeyboardEvent.key event ∉ ["z"; "y"; "Z"] → undoRedoKeyDown env event st = st.
Proof.
  intros Hkey. unfold undoRedoKeyDown.
  rewrite !bool_decide_false by (intros Heq; apply Hkey; rewrite Heq; listed).
  by rewrite !andb_false_r.
Qed.

Lemma copy_step env event st :
  isAnyModalOpen st = false → Env.isInputField env = false → isCopyKey event →
  step env st (KeyDown event) = copySelection st.
Proof.
  intros Hmodal Hinput [Hmod Hkey]. simpl.
  assert (Hcases : KeyboardEvent.key event = "c" ∨ KeyboardEvent.key event = "C").
  { apply elem_of_cons in Hkey as [?|Hkey]; [by left|].
    apply list_elem_of_singleton in Hkey. by right. }
  rewrite undoRedoKeyDown_other
    by (destruct Hcases as [-> | ->]; not_listed).
  unfold handleKeyDown. rewrite Hmodal, Hinput, Hmod. simpl.
  by destruct Hcases as [-> | ->].
Qed.

Lemma paste_step env event st :
  isAnyModalOpen st = false → Env.isInputField env = false → isPasteKey event →
  step env st (KeyDown event) = pasteClipboard env st.
Proof.
  intros Hmodal Hinput [Hmod Hkey]. simpl.
  assert (Hcases : KeyboardEvent.key event = "v" ∨ KeyboardEvent.key event = "V").
  { apply elem_of_cons in Hkey as [?|Hkey]; [by left|].
    apply list_elem_of_singleton in Hkey. by right. }
  rewrite undoRedoKeyDown_other
    by (destruct Hcases as [-> | ->]; not_listed).
  unfold handleKeyDown. rewrite Hmodal, Hinput, Hmod. simpl.
  by destruct Hcases as [-> | ->].
Qed.



(** What an edge batch does to a node stays inside [data]. *)
Lemma onEdgesChange_frames edgeChanges g :
  ∃ f, nodes (onEdgesChange edgeChanges g) = map f (nodes g)
       ∧ ∀ node, CustomNode.id (f node) = CustomNode.id node
                 ∧ CustomNode.position (f node) = CustomNode.position node
                 ∧ CustomNode.selected (f node) = CustomNode.selected node.
Proof.
  unfold onEdgesChange, clearNodesStatusAndOutput, setNodes, setEdges.
  repeat case_bool_decide; simpl; rewrite ?map_map;
    first [by eexists; split; [reflexivity|]
          |exists Datatypes.id; split; [by rewrite map_id|done]].
Qed.

Lemma onEdgesChange_applies edgeChanges g :
  edges (onEdgesChange edgeChanges g) = applyEdgeChanges edgeChanges (edges g).
Proof.
  unfold onEdgesChange, clearNodesStatusAndOutput, setNodes, setEdges.
  by repeat case_bool_decide.
Qed.

(** Whatever ids are in use, [addEdges] removes no edge and appends the
    edges of the payload that come under a new id. *)
Lemma addEdges_edges es g :
  ∃ h, edges (addEdges es g)
       = map h (edges g)
         ++ filter (λ edge, CustomEdge.id edge ∉ map CustomEdge.id (edges g)) es.
Proof.
  unfold addEdges. rewrite onEdgesChange_applies.
  apply (applyChanges_reported CustomEdge.id).
Qed.

(** The paste branch, whatever ids are in use. *)
Lemma pasteClipboard_graph env st :
  copiedNodes st ≠ [] →
  let pastedNodes := imap (pastedNode (nodeId st)) (copiedNodes st) in
  let pastedEdges :=
    map (pastedEdge (Env.now env) (oldToNewNodeIDMap (nodeId st) (copiedNodes st)))
        (copiedEdges st) in
  ∃ f h,
    (∀ node, CustomNode.id (f node) = CustomNode.id node
             ∧ CustomNode.position (f node) = CustomNode.position node
             ∧ CustomNode.selected (f node) = CustomNode.selected node)
    ∧ pasteClipboard env st
      = mkEditor
          (mkGraph
             (map f (map (CustomNode.with_selected false) (nodes (graph st))
                     ++ pastedNodes))
             (map h (edges (graph st))
              ++ filter (λ edge, CustomEdge.id edge
                                 ∉ map CustomEdge.id (edges (graph st)))
                   pastedEdges))
          (availableNodes st) (nodeId st + Z.of_nat (length (copiedNodes st)))
          (copiedNodes st) (copiedEdges st) (isAnyModalOpen st)
          (initialPositionRef st) (isDragging st) (history st) (memoEdges st).
Proof.
  intros Hne pastedNodes pastedEdges. unfold pasteClipboard.
  rewrite bool_decide_true by (destruct (copiedNodes st); [done|simpl; lia]).
  unfold onGraph, withGraph, setNodeId. simpl.
  rewrite addNodes_spec. simpl. fold pastedNodes pastedEdges.
  set (g := mkGraph _ (edges (graph st))).
  destruct (onEdgesChange_frames
              (ReactFlow.reported CustomEdge.id (edges g) pastedEdges) g)
    as (f & Hnodes & Hf).
  destruct (addEdges_edges pastedEdges g) as [h Hedges].
  exists f, h. split; [exact Hf|].
  f_equal. destruct (addEdges pastedEdges g) as [ns es] eqn:Hg.
  unfold addEdges in Hg. rewrite Hg in Hnodes. simpl in Hnodes, Hedges.
  by rewrite Hnodes, Hedges.
Qed.


Lemma oldToNewNodeIDMap_snoc nodeId ns n :
  oldToNewNodeIDMap nodeId (ns ++ [n])
  = <[CustomNode.id n := pretty (nodeId + Z.of_nat (length ns))%Z]>
      (oldToNewNodeIDMap nodeId ns).
Proof.
  unfold oldToNewNodeIDMap. rewrite imap_app, foldl_app. simpl.
  by rewrite Nat.add_0_r.
Qed.



Lemma pastedNodes_ids nodeId ns :
  map CustomNode.id (imap (pastedNode nodeId) ns)
  = imap (λ index _, pretty (nodeId + Z.of_nat index)%Z) ns.
Proof.
  change (map CustomNode.id (imap (pastedNode nodeId) ns))
    with (CustomNode.id <$> imap (pastedNode nodeId) ns).
  by rewrite fmap_imap.
Qed.

(** The copies get ids that differ from one another. *)
Lemma pastedNodes_NoDup nodeId ns :
  NoDup (map CustomNode.id (imap (pastedNode nodeId) ns)).
Proof.
  rewrite pastedNodes_ids. apply NoDup_alt. intros i j s Hi Hj.
  rewrite list_lookup_imap in Hi, Hj.
  destruct (ns !! i); [|done]. destruct (ns !! j); [|done].
  simpl in Hi, Hj. rewrite <- Hj in Hi. injection Hi as Hi.
  apply (inj pretty) in Hi. lia.
Qed.




(** ** Taking an entry back and putting it in again *)

Lemma clearedNode_id node : CustomNode.id (clearedNode node) = CustomNode.id node.
Proof. reflexivity. Qed.

Lemma deleteEdges_nil g : deleteEdges [] g = g.
Proof.
  unfold deleteEdges. rewrite bool_decide_true; [done|].
  apply filter_none, Forall_forall. intros edge _. apply not_elem_of_nil.
Qed.

(** [deleteElements] asked for edges only is [deleteEdges]. *)
Lemma deleteElements_edges_only memo ids g :
  deleteElements memo [] ids g = deleteEdges ids g.
Proof.
  unfold deleteElements, deleteEdges.
  rewrite (filter_none _ (nodes g))
    by (apply Forall_forall; intros node _; apply not_elem_of_nil).
  rewrite (filter_ext_elem _ (λ edge, CustomEdge.id edge ∈ ids) (edges g)).
  - by rewrite (bool_decide_true ([] = [])).
  - intros edge _. split; [|auto].
    intros [Hs|[Ht|Hi]];
      [by apply elem_of_nil in Hs|by apply elem_of_nil in Ht|done].
Qed.





Section Replacements.
Context {A : Type} (elemId : A → string).




End Replacements.






(** ** The statements at work on the small session *)

(** C2 fails for a short drag: the first adder, dragged from (640, 360)
    to (643, 364), has completed a drag, and nothing is pushed. *)
Lemma short_drag_not_logged :
  let st := step demoEnv (mounted [adderBlock]) (AddBlock "adder" "Adder") in
  let st' := run demoEnv st [NodeDragStart firstAdder; NodeDragStop (Some nudgedAdder)] in
  CustomNode.id nudgedAdder = CustomNode.id firstAdder
  ∧ CustomNode.position firstAdder = XYPosition.mk 640 360
  ∧ CustomNode.position nudgedAdder = XYPosition.mk 643 364
  ∧ ¬ ∃ action, history st' = History.push action (history st).
Proof.
  split_and!; [reflexivity|by vm_compute|reflexivity|].
  intros [action Heq]. apply (f_equal (λ h, length (History.past h))) in Heq.
  vm_compute in Heq. discriminate Heq.
Qed.

(** C3 fails close to the threshold.  The first adder is dragged from
    (640, 360) by 50 to the right and by 2^-24 down: the Euclidean
    distance of the drag is greater than 50, and nothing is pushed.  The
    square of the small difference is lost when it is added to 2500, so
    the distance that the code computes is 50. *)
Lemma drag_beyond_threshold_rounded_away :
  let st := step demoEnv (mounted [adderBlock]) (AddBlock "adder" "Adder") in
  let st' := run demoEnv st [NodeDragStart firstAdder; NodeDragStop (Some grazedAdder)] in
  CustomNode.id grazedAdder = CustomNode.id firstAdder
  ∧ (50 < euclideanDistance (CustomNode.position firstAdder)
             (CustomNode.position grazedAdder))%R
  ∧ history st' = history st.
Proof.
  intros st st'. split_and!; [reflexivity| |].
  - apply euclideanDistance_beyond. vm_compute. reflexivity.
  - assert (Hnear : movedEnough (CustomNode.position firstAdder)
                      (CustomNode.position grazedAdder) = false)
      by (vm_compute; reflexivity).
    subst st'.
    change (run demoEnv st [NodeDragStart firstAdder; NodeDragStop (Some grazedAdder)])
      with (onNodeDragEnd (Some grazedAdder)
              (run demoEnv (onNodeDragStart firstAdder st) (NodesChange <$> []))).
    rewrite (drag_completed demoEnv firstAdder grazedAdder [] st eq_refl).
    cbn [history]. by rewrite Hnear.
Qed.

(** C4 fails for a connection between handles that are connected already:
    it is accepted, and the edges of the graph are those from before, the
    new edge in the place of the edge that carried its id. *)
Lemma reconnection_adds_no_edge :
  ∃ st',
    onConnect demoEnv wire wiredPair = Some st'
    ∧ map CustomEdge.id (edges (graph wiredPair)) = ["1_result_2_a"]
    ∧ edges (graph st') = edges (graph wiredPair).
Proof.
  destruct (getNode (Connection.source wire) (graph wiredPair))
    as [sourceNode|] eqn:Hget; [|by vm_compute in Hget].
  rewrite (onConnect_found demoEnv wire wiredPair sourceNode Hget).
  vm_compute in Hget. injection Hget as <-.
  eexists. split_and!; [reflexivity|by vm_compute|].
  cbn [graph]. by vm_compute.
Qed.

Lemma addNode_unknown_block_witness :
  ("mixer" ∉ map Block.id (availableNodes twoAdders))
  ∧ addNode demoEnv "mixer" "Mixer" twoAdders = twoAdders.
Proof.
  assert (Hnot : "mixer" ∉ map Block.id (availableNodes twoAdders)) by not_listed.
  split; [exact Hnot|].
  exact (addNode_unknown_block demoEnv "mixer" "Mixer" twoAdders Hnot).
Defined.

Lemma addNode_known_block_witness :
  ("adder" ∈ map Block.id (availableNodes twoAdders))
  ∧ ∃ newNode,
      nodes (graph (addNode demoEnv "adder" "Adder" twoAdders))
      = map clearedNode (nodes (graph twoAdders)) ++ [newNode]
      ∧ CustomNode.id newNode = "3".
Proof.
  assert (Hin : "adder" ∈ map Block.id (availableNodes twoAdders)) by listed.
  split; [exact Hin|].
  destruct (addNode_known_block demoEnv "adder" "Adder" twoAdders Hin)
    as (nodeSchema & newNode & _ & _ & Hgraph & Hid & _).
  exists newNode. rewrite Hgraph. split; [reflexivity|exact Hid].
Defined.

Lemma onConnect_adds_one_edge_witness :
  onConnect demoEnv wire twoAdders = Some wiredPair
  ∧ (formatEdgeID (inr wire) ∉ map CustomEdge.id (edges (graph twoAdders)))
  ∧ ∃ newEdge,
      edges (graph wiredPair) = edges (graph twoAdders) ++ [newEdge]
      ∧ CustomEdge.id newEdge = "1_result_2_a".
Proof.
  assert (Hconn : onConnect demoEnv wire twoAdders = Some wiredPair).
  { unfold wiredPair. cbn [step].
    destruct (getNode (Connection.source wire) (graph twoAdders)) as [sourceNode|] eqn:Hget;
      [|by vm_compute in Hget].
    by rewrite (onConnect_found demoEnv wire twoAdders sourceNode Hget). }
  assert (Hfresh : formatEdgeID (inr wire) ∉ map CustomEdge.id (edges (graph twoAdders)))
    by (vm_compute; apply not_elem_of_nil).
  split_and!; [exact Hconn|exact Hfresh|].
  destruct (onConnect_adds_one_edge demoEnv wire twoAdders wiredPair Hconn)
    as (newEdge & Hedges & _ & _ & _ & _ & _ & _ & Hid & _).
  exists newEdge. split; [exact (Hedges Hfresh)|]. rewrite Hid. reflexivity.
Defined.

Lemma drag_logged_iff_beyond_threshold_witness :
  let batches := [[moveNode "1" (CustomNode.position draggedAdder)]] in
  let dragging := run demoEnv (onNodeDragStart firstAdder twoAdders) (NodesChange <$> batches) in
  let grazing := run demoEnv (onNodeDragStart firstAdder twoAdders) (NodesChange <$> []) in
  CustomNode.id draggedAdder = CustomNode.id firstAdder
  ∧ CustomNode.id grazedAdder = CustomNode.id firstAdder
  ∧ (∃ action,
       history (onNodeDragEnd (Some draggedAdder) dragging)
       = History.push action (history twoAdders))
  ∧ history (onNodeDragEnd (Some grazedAdder) grazing) = history twoAdders.
Proof.
  intros batches dragging grazing.
  split_and!; [reflexivity|reflexivity| |].
  - exact (proj1 (proj1 (drag_logged_iff_beyond_threshold demoEnv firstAdder draggedAdder
                           batches twoAdders eq_refl)) eq_refl).
  - exact (proj1 (proj2 (drag_logged_iff_beyond_threshold demoEnv firstAdder grazedAdder
                           [] twoAdders eq_refl)) eq_refl).
Defined.

Lemma drag_beyond_threshold_logged_witness :
  let dragging :=
    run demoEnv (onNodeDragStart firstAdder twoAdders)
      (NodesChange <$> [[moveNode "1" (CustomNode.position draggedAdder)]]) in
  let dx :=
    (XYPosition.x (CustomNode.position draggedAdder)
     - XYPosition.x (CustomNode.position firstAdder))%float in
  let dy :=
    (XYPosition.y (CustomNode.position draggedAdder)
     - XYPosition.y (CustomNode.position firstAdder))%float in
  CustomNode.id draggedAdder = CustomNode.id firstAdder
  ∧ (50 <? PrimFloat.sqrt (dx * dx + dy * dy))%float = true
  ∧ ∃ action,
      history (onNodeDragEnd (Some draggedAdder) dragging)
      = History.push action (history twoAdders)
      ∧ type action = "UPDATE_NODE_POSITION"
      ∧ payload action
        = PositionPayload "1" (XYPosition.mk 640 360) (XYPosition.mk 740 360).
Proof.
  intros dragging dx dy.
  assert (Hfar : (50 <? PrimFloat.sqrt (dx * dx + dy * dy))%float = true)
    by (vm_compute; reflexivity).
  split_and!; [reflexivity|exact Hfar|].
  destruct (drag_beyond_threshold_logged demoEnv firstAdder draggedAdder
              [[moveNode "1" (CustomNode.position draggedAdder)]] twoAdders eq_refl Hfar)
    as (action & Hpush & Htype & Hpayload).
  exists action. split_and!; [exact Hpush|exact Htype|].
  rewrite Hpayload. vm_compute. reflexivity.
Defined.

(** * Further properties of the handlers *)

(** ** Keys *)

(** X1.  A key press runs undo or redo, never both: with the platform's
    modifier held, "z" undoes, "y" or Shift+"Z" redoes, and any other
    key, or any key without the modifier, leaves the first listener
    idle. *)
Theorem undoRedoKeyDown_exclusive env event st :
  undoRedoKeyDown env event st
  = if undoModifier env event && bool_decide (KeyboardEvent.key event = "z")
    then handleUndo st
    else if undoModifier env event
            && (bool_decide (KeyboardEvent.key event = "y")
                || (KeyboardEvent.shiftKey event
                    && bool_decide (KeyboardEvent.key event = "Z")))
    then handleRedo st
    else st.
Proof.
  unfold undoRedoKeyDown, undoModifier.
  destruct (bool_decide (KeyboardEvent.key event = "z")) eqn:Hz.
  - apply bool_decide_eq_true in Hz. rewrite Hz.
    rewrite !(bool_decide_false ("z" = _)) by discriminate.
    destruct (if Env.isMac env then _ else _), (KeyboardEvent.shiftKey event);
      reflexivity.
  - rewrite !andb_false_r. reflexivity.
Qed.

(** X2.  The copy and paste listener acts only with no modal open, the
    focus outside input fields, Ctrl or Cmd held and one of the keys c, C,
    v, V; in every other case it leaves the editor as it is. *)
Theorem handleKeyDown_acts_only_when_allowed env event st :
  handleKeyDown env event st ≠ st →
  isAnyModalOpen st = false
  ∧ Env.isInputField env = false
  ∧ (KeyboardEvent.ctrlKey event || KeyboardEvent.metaKey event) = true
  ∧ KeyboardEvent.key event ∈ ["c"; "C"; "v"; "V"].
Proof.
  unfold handleKeyDown. intros Hacts.
  destruct (isAnyModalOpen st); [done|].
  destruct (Env.isInputField env); [done|].
  destruct (KeyboardEvent.ctrlKey event || KeyboardEvent.metaKey event); [|done].
  split_and!; try reflexivity. simpl in Hacts.
  destruct (decide (KeyboardEvent.key event = "c")) as [->|Hc]; [listed|].
  destruct (decide (KeyboardEvent.key event = "C")) as [->|HC]; [listed|].
  destruct (decide (KeyboardEvent.key event = "v")) as [->|Hv]; [listed|].
  destruct (decide (KeyboardEvent.key event = "V")) as [->|HV]; [listed|].
  by rewrite !bool_decide_false in Hacts by done.
Qed.

(** X3.  While a modal is open or an input field has the focus, a key
    press cannot copy or paste, yet the undo and redo shortcuts still
    run: the key press does what the first listener does with it. *)
Theorem keydown_while_blocked env event st :
  isAnyModalOpen st = true ∨ Env.isInputField env = true →
  step env st (KeyDown event) = undoRedoKeyDown env event st.
Proof.
  intros Hblocked. simpl. unfold handleKeyDown.
  assert (Hmodal : isAnyModalOpen (undoRedoKeyDown env event st) = isAnyModalOpen st).
  { destruct (undoRedoKeyDown_cases env event st) as [->|[->| ->]]; [done|..].
    - unfold handleUndo. by destruct (History.undo _ _).
    - unfold handleRedo. by destruct (History.redo _ _). }
  rewrite Hmodal. destruct Hblocked as [-> | ->]; [done|].
  by rewrite orb_true_r.
Qed.

(** X4.  A key pressed without Ctrl and without Cmd does nothing to the
    editor, on any platform. *)
Theorem keydown_without_modifier env event st :
  KeyboardEvent.ctrlKey event = false → KeyboardEvent.metaKey event = false →
  step env st (KeyDown event) = st.
Proof.
  intros Hctrl Hmeta. simpl.
  assert (Hidle : undoRedoKeyDown env event st = st).
  { unfold undoRedoKeyDown. rewrite Hctrl, Hmeta. by destruct (Env.isMac env). }
  rewrite Hidle. unfold handleKeyDown. rewrite Hctrl, Hmeta. simpl.
  by destruct (isAnyModalOpen st || Env.isInputField env).
Qed.

(** ** Drags *)

(** X5.  A drag end that no drag start announced (no node, or a node
    whose start position is not on record) is not logged: the history, the
    graph and the recorded start positions stay as they are. *)
Theorem drag_end_without_start node st :
  match node with
  | Some node => initialPositionRef st !! CustomNode.id node = None
  | None => True
  end →
  let st' := onNodeDragEnd node st in
  history st' = history st
  ∧ graph st' = graph st
  ∧ initialPositionRef st' = initialPositionRef st.
Proof.
  destruct node as [node|]; [|done].
  intros Hnone. unfold onNodeDragEnd. simpl. by rewrite Hnone.
Qed.

(** X6.  A completed drag forgets its start position: the record for the
    node is gone and the records of other nodes are untouched, so a second
    drag end on the node, without a new drag start, changes nothing and is
    not logged again. *)
Theorem drag_end_forgets_start env node node' node'' batches st :
  CustomNode.id node' = CustomNode.id node →
  CustomNode.id node'' = CustomNode.id node →
  let ended :=
    onNodeDragEnd (Some node')
      (run env (onNodeDragStart node st) (NodesChange <$> batches)) in
  initialPositionRef ended = delete (CustomNode.id node) (initialPositionRef st)
  ∧ onNodeDragEnd (Some node'') ended = ended.
Proof.
  intros Hid Hid' ended. subst ended.
  rewrite (drag_completed env _ _ batches _ Hid). split.
  - simpl. apply delete_insert_eq.
  - unfold onNodeDragEnd. simpl. rewrite Hid', lookup_delete_eq. reflexivity.
Qed.

(** X7.  Drags of different nodes do not mix: when a second node is
    picked up before the first is dropped, the drop of the first is logged
    against its own start position, exactly as without the second, and the
    start position of the second stays on record. *)
Theorem drags_do_not_mix node other node' st :
  CustomNode.id node' = CustomNode.id node →
  CustomNode.id other ≠ CustomNode.id node →
  let alone := onNodeDragEnd (Some node') (onNodeDragStart node st) in
  let mixed := onNodeDragEnd (Some node') (onNodeDragStart other (onNodeDragStart node st)) in
  history mixed = history alone
  ∧ initialPositionRef mixed !! CustomNode.id other = Some (CustomNode.position other).
Proof.
  intros Hid Hother alone mixed. subst alone mixed.
  unfold onNodeDragEnd, onNodeDragStart. simpl. rewrite Hid.
  rewrite lookup_insert_ne by done. rewrite !lookup_insert_eq.
  destruct (movedEnough _ _); simpl;
    (split; [reflexivity|]);
    rewrite lookup_delete_ne by done; apply lookup_insert_eq.
Qed.

(** ** Edge ids *)

Lemma append_underscore_inj s1 s2 r1 r2 :
  underscoreFree s1 → underscoreFree s2 →
  s1 +:+ "_" +:+ r1 = s2 +:+ "_" +:+ r2 →
  s1 = s2 ∧ r1 = r2.
Proof.
  revert s2. induction s1 as [|c s1 IH]; intros [|c' s2] H1 H2 Heq;
    unfold String.append in Heq; fold String.append in Heq.
  - by injection Heq as ->.
  - injection Heq as <- _. by destruct H2 as [[] _].
  - injection Heq as -> _. by destruct H1 as [[] _].
  - injection Heq as -> Heq. destruct H1 as [_ H1], H2 as [_ H2].
    by destruct (IH s2 H1 H2 Heq) as [-> ->].
Qed.

(** X8.  [formatEdgeID] gives a link of the server the id it gives the
    connection between the same handles: the edge of a loaded link and the
    edge drawn by hand between its handles have one id. *)
Theorem formatEdgeID_link_as_connection link :
  formatEdgeID (inl link)
  = formatEdgeID
      (inr (Connection.mk (Link.source_id link) (Some (Link.source_name link))
              (Link.sink_id link) (Some (Link.sink_name link)))).
Proof. reflexivity. Qed.

(** X9.  As long as node ids and source handles contain no underscore,
    [formatEdgeID] tells connections apart: two connections with one id
    have the same source, the same target and handles that read the
    same. *)
Theorem formatEdgeID_inj c1 c2 :
  underscoreFree (Connection.source c1) → underscoreFree (Connection.source c2) →
  underscoreFree (handleText (Connection.sourceHandle c1)) →
  underscoreFree (handleText (Connection.sourceHandle c2)) →
  underscoreFree (Connection.target c1) → underscoreFree (Connection.target c2) →
  formatEdgeID (inr c1) = formatEdgeID (inr c2) →
  Connection.source c1 = Connection.source c2
  ∧ handleText (Connection.sourceHandle c1) = handleText (Connection.sourceHandle c2)
  ∧ Connection.target c1 = Connection.target c2
  ∧ handleText (Connection.targetHandle c1) = handleText (Connection.targetHandle c2).
Proof.
  intros Hs1 Hs2 Hh1 Hh2 Ht1 Ht2 Heq. unfold formatEdgeID in Heq.
  apply append_underscore_inj in Heq as [Hs Heq]; [|done..].
  apply append_underscore_inj in Heq as [Hh Heq]; [|done..].
  apply append_underscore_inj in Heq as [Ht Heq]; [|done..].
  done.
Qed.

(** ** Connections *)

Lemma find_node_Some i (ns : list CustomNode.t) :
  i ∈ map CustomNode.id ns →
  ∃ node, head (filter (λ node, CustomNode.id node = i) ns) = Some node.
Proof.
  intros (node & -> & Hin)%list_elem_of_fmap.
  destruct (filter (λ other, CustomNode.id other = CustomNode.id node) ns)
    as [|first rest] eqn:Hfilter; [|by exists first].
  assert (Hmem : node ∈ filter (λ other, CustomNode.id other = CustomNode.id node) ns)
    by (by apply list_elem_of_filter).
  rewrite Hfilter in Hmem. by apply elem_of_nil in Hmem.
Qed.

Lemma find_node_None i (ns : list CustomNode.t) :
  i ∉ map CustomNode.id ns →
  head (filter (λ node, CustomNode.id node = i) ns) = None.
Proof.
  intros Hnot. rewrite filter_none; [done|].
  apply Forall_forall. intros node Hin Hid. apply Hnot, list_elem_of_fmap. eauto.
Qed.

(** X10.  [onConnect] goes through exactly when the graph has a node with
    the source id of the connection.  Otherwise it throws before it has
    changed anything, and the editor is left as it was. *)
Theorem onConnect_accepts_iff env connection st :
  (is_Some (onConnect env connection st)
   ↔ Connection.source connection ∈ map CustomNode.id (nodes (graph st)))
  ∧ (Connection.source connection ∉ map CustomNode.id (nodes (graph st)) →
     step env st (Connect connection) = st).
Proof.
  split.
  - split.
    + intros [st' Hst']. unfold onConnect, getNode in Hst'.
      destruct (decide (Connection.source connection ∈ map CustomNode.id (nodes (graph st))))
        as [Hin|Hnot]; [done|].
      by rewrite (find_node_None _ _ Hnot) in Hst'.
    + intros Hin. destruct (find_node_Some _ _ Hin) as [sourceNode Hget].
      rewrite (onConnect_found env connection st sourceNode Hget). eauto.
  - intros Hnot. simpl. unfold onConnect, getNode.
    by rewrite (find_node_None _ _ Hnot).
Qed.

(** ** Results of a run *)

Lemma clearedNode_wiped ns : Forall (λ node, nodeResult node = (None, None, false))
                               (map clearedNode ns).
Proof. apply Forall_fmap, Forall_forall. by intros node _. Qed.

Lemma clear_wipes g : resultsWiped (clearNodesStatusAndOutput g).
Proof. apply clearedNode_wiped. Qed.

(** X12.  An edit wipes the results of the last run from every node: once
    a block is added, a connection made, nodes deleted, or an edge removed
    or replaced, no node carries a status or an output and every output
    panel is closed. *)
Theorem edits_wipe_results env st ev :
  match ev with
  | AddBlock blockId _ => blockId ∈ map Block.id (availableNodes st)
  | Connect connection =>
      Connection.source connection ∈ map CustomNode.id (nodes (graph st))
  | NodesDelete => True
  | EdgesChange edgeChanges =>
      ReactFlow.removed edgeChanges ≠ [] ∨ ReactFlow.replaced edgeChanges ≠ []
  | _ => False
  end →
  resultsWiped (graph (step env st ev)).
Proof.
  destruct ev as [| | |edgeChanges| |connection|blockId nodeType| | | | | ]; try done.
  - (* edges removed or replaced *)
    intros Hedit. simpl. unfold onEdgesChange.
    destruct (ReactFlow.replaced edgeChanges) as [|e es] eqn:Hreplaced.
    + destruct Hedit as [Hremoved|[]]; [|done].
      destruct (ReactFlow.removed edgeChanges) as [|i ids]; [done|].
      decide_lengths. apply clear_wipes.
    + rewrite (bool_decide_true (0 < length (e :: es))%nat) by (simpl; lia).
      apply clear_wipes.
  - intros _. apply clear_wipes.
  - (* a connection made *)
    intros Hin. destruct (find_node_Some _ _ Hin) as [sourceNode Hget].
    simpl. rewrite (onConnect_found env connection st sourceNode Hget).
    cbn [default from_option Datatypes.id graph]. apply clear_wipes.
  - (* a block added *)
    intros Hin. destruct (find_block_Some _ _ Hin) as (nodeSchema & Hfind & _ & _).
    simpl. rewrite (addNode_found _ _ _ _ _ Hfind). unfold resultsWiped. simpl.
    apply Forall_app. split; [apply clearedNode_wiped|]. by constructor.
Qed.

(** X13.  A batch of edge changes that neither removes nor replaces an
    edge leaves the results of the last run on every node. *)
Theorem onEdgesChange_keeps_results edgeChanges g :
  ReactFlow.removed edgeChanges = [] → ReactFlow.replaced edgeChanges = [] →
  map nodeResult (nodes (onEdgesChange edgeChanges g)) = map nodeResult (nodes g).
Proof.
  intros Hremoved Hreplaced. unfold onEdgesChange. rewrite Hremoved, Hreplaced.
  rewrite !(bool_decide_false (0 < length [])%nat) by (simpl; lia).
  case_bool_decide; [|done].
  unfold setNodes. simpl. rewrite map_map. by apply map_ext.
Qed.

(** ** The edges seen by [onNodesChange] *)

Lemma run_memoEdges env events : ∀ st,
  memoEdges (run env st events) = memoEdges st.
Proof.
  induction events as [|ev events IH]; intros st; [done|].
  change (run env st (ev :: events)) with (run env (step env st ev) events).
  by rewrite IH, step_memoEdges.
Qed.

Lemma onNodesChange_no_memo nodeChanges g :
  onNodesChange [] nodeChanges g = setNodes (applyNodeChanges nodeChanges) g.
Proof.
  unfold onNodesChange. generalize (setNodes (applyNodeChanges nodeChanges) g).
  induction (ReactFlow.removed nodeChanges) as [|nodeID ids IH]; intros g'; [done|].
  simpl. rewrite deleteEdges_nil. apply IH.
Qed.

(** X14.  In an editor mounted on an empty graph, whatever has happened
    since, [onNodesChange] applies the batch to the nodes and does nothing
    else: the edges it would look for are those of the first render, of
    which there are none, so no batch ever makes it delete an edge. *)
Theorem mounted_onNodesChange_keeps_edges env blocks events nodeChanges :
  let st := run env (mounted blocks) events in
  step env st (NodesChange nodeChanges)
  = onGraph (setNodes (applyNodeChanges nodeChanges)) st.
Proof.
  intros st. subst st. simpl. rewrite run_memoEdges. simpl.
  unfold onGraph. f_equal. apply onNodesChange_no_memo.
Qed.

(** ** More on copy and paste *)

(** X15.  Edges cannot be pasted on their own.  When no node is selected,
    copy stores the selected edges, and the paste that follows leaves the
    graph, the counter and the history as they were. *)
Theorem copy_paste_without_nodes env copyKey pasteKey st :
  isAnyModalOpen st = false → Env.isInputField env = false →
  isCopyKey copyKey → isPasteKey pasteKey →
  filter (λ node, CustomNode.selected node = true) (nodes (graph st)) = [] →
  let pasted := step env (step env st (KeyDown copyKey)) (KeyDown pasteKey) in
  copiedEdges pasted
    = filter (λ edge, CustomEdge.selected edge = true) (edges (graph st))
  ∧ graph pasted = graph st
  ∧ nodeId pasted = nodeId st
  ∧ history pasted = history st.
Proof.
  intros Hmodal Hinput Hcopy Hpaste Hnone pasted. subst pasted.
  rewrite (copy_step env copyKey st Hmodal Hinput Hcopy).
  rewrite (paste_step env pasteKey (copySelection st)) by done.
  unfold pasteClipboard, copySelection. simpl. rewrite Hnone. done.
Qed.

Lemma connectedBy_selected es node :
  CustomNode.selected (connectedBy es node) = CustomNode.selected node.
Proof. reflexivity. Qed.

(** X16.  After a copy and a paste the selection has moved to the copies:
    the selected nodes of the graph are exactly the nodes that the paste
    appended, one per stored node. *)
Theorem paste_selects_copies env copyKey pasteKey st :
  isAnyModalOpen st = false → Env.isInputField env = false →
  isCopyKey copyKey → isPasteKey pasteKey →
  let stored := filter (λ node, CustomNode.selected node = true) (nodes (graph st)) in
  let pasted := step env (step env st (KeyDown copyKey)) (KeyDown pasteKey) in
  stored ≠ [] →
  filter (λ node, CustomNode.selected node = true) (nodes (graph pasted))
    = drop (length (nodes (graph st))) (nodes (graph pasted))
  ∧ length (drop (length (nodes (graph st))) (nodes (graph pasted))) = length stored.
Proof.
  intros Hmodal Hinput Hcopy Hpaste stored pasted Hne. subst pasted.
  rewrite (copy_step env copyKey st Hmodal Hinput Hcopy).
  rewrite (paste_step env pasteKey (copySelection st)) by done.
  destruct (pasteClipboard_graph env (copySelection st) Hne) as (f & h & Hf & Hspec).
  simpl in Hspec. fold stored in Hspec. rewrite Hspec. simpl.
  rewrite map_app, filter_app.
  rewrite drop_app_length' by (by rewrite !length_map).
  rewrite filter_none.
  - simpl. rewrite length_map, length_imap. split; [|done].
    apply filter_all, Forall_fmap, Forall_lookup. intros i node Hi.
    rewrite list_lookup_imap in Hi.
    destruct (stored !! i) as [original|] eqn:Hstored; [|done].
    injection Hi as <-. simpl. rewrite (proj2 (proj2 (Hf _))). simpl.
    apply list_elem_of_lookup_2, list_elem_of_filter in Hstored. by destruct Hstored.
  - apply Forall_fmap, Forall_fmap, Forall_forall. intros node _. simpl.
    by rewrite (proj2 (proj2 (Hf _))).
Qed.

Lemma oldToNewNodeIDMap_in nodeId ns s :
  s ∈ map CustomNode.id ns →
  ∃ i, (i < length ns)%nat
       ∧ oldToNewNodeIDMap nodeId ns !! s = Some (pretty (nodeId + Z.of_nat i)%Z).
Proof.
  induction ns as [|n ns IH] using rev_ind; intros Hin; [by apply elem_of_nil in Hin|].
  rewrite oldToNewNodeIDMap_snoc, length_app. simpl.
  destruct (decide (CustomNode.id n = s)) as [<-|Hne].
  - exists (length ns). split; [lia|]. apply lookup_insert_eq.
  - rewrite map_app in Hin. apply elem_of_app in Hin as [Hin|Hin].
    + destruct (IH Hin) as (i & Hi & Hlookup). exists i. split; [lia|].
      by rewrite lookup_insert_ne.
    + apply list_elem_of_singleton in Hin. congruence.
Qed.

Lemma pastedNode_id_in nodeId ns i :
  (i < length ns)%nat →
  pretty (nodeId + Z.of_nat i)%Z ∈ map CustomNode.id (imap (pastedNode nodeId) ns).
Proof.
  intros Hi. rewrite pastedNodes_ids. apply list_elem_of_lookup.
  exists i. rewrite list_lookup_imap.
  destruct (lookup_lt_is_Some_2 ns i Hi) as [node ->]. reflexivity.
Qed.

(** X17.  The copy of a closed selection is closed.  If both ends of every
    stored edge are stored nodes, then both ends of every edge that a paste
    appends are nodes that the same paste appended. *)
Theorem paste_closed_selection env st :
  Forall (λ edge,
            CustomEdge.source edge ∈ map CustomNode.id (copiedNodes st)
            ∧ CustomEdge.target edge ∈ map CustomNode.id (copiedNodes st))
         (copiedEdges st) →
  let g' := graph (pasteClipboard env st) in
  let newIds := map CustomNode.id (drop (length (nodes (graph st))) (nodes g')) in
  Forall (λ edge, CustomEdge.source edge ∈ newIds ∧ CustomEdge.target edge ∈ newIds)
         (drop (length (edges (graph st))) (edges g')).
Proof.
  intros Hclosed g' newIds. subst g' newIds.
  destruct (copiedNodes st) as [|n ns] eqn:Hcopied.
  - unfold pasteClipboard. rewrite Hcopied. simpl.
    rewrite !drop_all. constructor.
  - destruct (pasteClipboard_graph env st) as (f & h & Hf & Hspec);
      [by rewrite Hcopied|].
    simpl in Hspec. rewrite Hspec. simpl. rewrite <- Hcopied in *.
    rewrite drop_app_length' by (by rewrite length_map).
    rewrite map_app, drop_app_length' by (by rewrite !length_map).
    rewrite map_map.
    rewrite (map_ext (λ node, CustomNode.id (f node)) CustomNode.id)
      by (intros node; apply Hf).
    apply Forall_forall. intros pasted [_ Hpasted]%list_elem_of_filter.
    revert pasted Hpasted. apply Forall_forall, Forall_fmap.
    eapply Forall_impl; [exact Hclosed|].
    intros edge [Hsource Htarget]. simpl.
    destruct (oldToNewNodeIDMap_in (nodeId st) _ _ Hsource) as (i & Hi & ->).
    destruct (oldToNewNodeIDMap_in (nodeId st) _ _ Htarget) as (j & Hj & ->).
    simpl. split; by apply pastedNode_id_in.
Qed.

Lemma pasted_positions nodeId (f : CustomNode.t → CustomNode.t) ns :
  (∀ node, CustomNode.position (f node) = CustomNode.position node) →
  map CustomNode.position (map f (imap (pastedNode nodeId) ns))
  = map (λ node, XYPosition.mk (XYPosition.x (CustomNode.position node) + 20)
                               (XYPosition.y (CustomNode.position node) + 20)) ns.
Proof.
  intros Hf. rewrite map_map.
  rewrite (map_ext (λ node, CustomNode.position (f node)) CustomNode.position)
    by exact Hf.
  change (map CustomNode.position) with (fmap (M:=list) CustomNode.position).
  rewrite fmap_imap. unfold compose. simpl. apply imap_const.
Qed.

(** X18.  A paste places its copies by the stored nodes, not by what is on
    the canvas: pasting again puts the second copies exactly where the
    first ones were put, and the counter has moved on by twice the number
    of stored nodes. *)
Theorem paste_twice_stacks env env' st :
  copiedNodes st ≠ [] →
  let once := pasteClipboard env st in
  let twice := pasteClipboard env' once in
  map CustomNode.position (drop (length (nodes (graph once))) (nodes (graph twice)))
    = map CustomNode.position (drop (length (nodes (graph st))) (nodes (graph once)))
  ∧ nodeId twice = (nodeId st + 2 * Z.of_nat (length (copiedNodes st)))%Z.
Proof.
  intros Hne once twice. subst twice.
  destruct (pasteClipboard_graph env st Hne) as (f & h & Hf & Honce).
  cbv zeta in Honce. fold once in Honce.
  assert (Hcopied : copiedNodes once = copiedNodes st) by (by rewrite Honce).
  destruct (pasteClipboard_graph env' once) as (f' & h' & Hf' & Htwice);
    [by rewrite Hcopied|].
  cbv zeta in Htwice. rewrite Hcopied in Htwice. rewrite Htwice. simpl.
  rewrite !map_app, !drop_app_length' by (by rewrite !length_map).
  rewrite Honce. simpl.
  rewrite !map_app, !drop_app_length' by (by rewrite !length_map).
  rewrite !pasted_positions by (intros node; apply Hf || apply Hf').
  split; [done|lia].
Qed.

(** ** Connection records *)

Section IdKeeping.
Context {A : Type} (elemId : A → string).
Implicit Types (cs acc : list (ReactFlow.Change A)) (els : list A).

Lemma changesFor_patchesOnly i cs : ∀ acc,
  Forall (keepsId elemId) cs → i ∉ ReactFlow.removed cs → patchesOnly elemId acc →
  patchesOnly elemId (ReactFlow.changesFor i cs acc).
Proof.
  induction cs as [|c cs IH]; intros acc Hcs Hi Hacc; [done|].
  apply Forall_cons in Hcs as [Hc Hcs].
  destruct c as [item|j|j item|j patch]; simpl in *.
  - by apply IH.
  - apply not_elem_of_cons in Hi as [Hne Hi].
    rewrite bool_decide_false by done. by apply IH.
  - done.
  - apply IH; [done..|]. case_bool_decide; [|done].
    apply Forall_app. split; [done|]. by constructor.
Qed.

Lemma changesFor_removalFirst i cs : ∀ acc,
  Forall (keepsId elemId) cs →
  i ∈ ReactFlow.removed cs ∨ removalFirst acc →
  removalFirst (ReactFlow.changesFor i cs acc).
Proof.
  induction cs as [|c cs IH]; intros acc Hcs Hwhy.
  - destruct Hwhy as [Hin|Hacc]; [by apply elem_of_nil in Hin|done].
  - apply Forall_cons in Hcs as [Hc Hcs].
    destruct c as [item|j|j item|j patch]; simpl in *.
    + by apply IH.
    + apply IH; [done|]. case_bool_decide as Hj; [by right|].
      destruct Hwhy as [Hin|Hacc]; [|by right].
      apply elem_of_cons in Hin as [->|Hin]; [done|by left].
    + done.
    + apply IH; [done|]. destruct Hwhy as [Hin|Hacc]; [by left|right].
      case_bool_decide; [|done]. by destruct acc as [|[] ?].
Qed.

Lemma patched_id el acc :
  patchesOnly elemId acc → elemId (ReactFlow.patched el acc) = elemId el.
Proof.
  unfold ReactFlow.patched. revert el.
  induction acc as [|c acc IH]; intros el Hacc; [done|].
  apply Forall_cons in Hacc as [Hc Hacc]. simpl.
  destruct c as [| | |j patch]; try done. by rewrite IH, Hc.
Qed.

(** Under a batch that keeps ids, the elements that stay are those whose
    id is not removed, in their order and under their ids, followed by the
    added ones. *)
Lemma applyChanges_ids cs els :
  Forall (keepsId elemId) cs →
  map elemId (ReactFlow.applyChanges elemId cs els)
  = map elemId (filter (λ el, elemId el ∉ ReactFlow.removed cs) els)
    ++ map elemId (ReactFlow.added cs).
Proof.
  intros Hcs. unfold ReactFlow.applyChanges. rewrite map_app. f_equal.
  induction els as [|el els IH]; [done|].
  cbn [omap list_omap]. destruct (decide (elemId el ∈ ReactFlow.removed cs)) as [Hin|Hnot].
  - rewrite filter_cons_False by auto.
    pose proof (changesFor_removalFirst (elemId el) cs [] Hcs (or_introl Hin)) as Hfirst.
    destruct (ReactFlow.changesFor (elemId el) cs []) as [|[] ?]; done.
  - rewrite filter_cons_True by done.
    pose proof (changesFor_patchesOnly (elemId el) cs [] Hcs Hnot (Forall_nil_2 _))
      as Hpatches.
    assert (Happly : ReactFlow.applyTo el (ReactFlow.changesFor (elemId el) cs [])
              = Some (ReactFlow.patched el (ReactFlow.changesFor (elemId el) cs []))).
    { destruct (ReactFlow.changesFor (elemId el) cs []) as [|c rest]; [done|].
      apply Forall_cons in Hpatches as [Hc _]. by destruct c. }
    rewrite Happly. simpl. by rewrite patched_id, IH.
Qed.

(** A batch of replacements, each by an element of the same id, keeps the
    ids as they are. *)
Lemma applyChanges_replacements cs els :
  Forall (λ c, match c with
               | ReactFlow.Replace j item => elemId item = j
               | _ => False
               end) cs →
  map elemId (ReactFlow.applyChanges elemId cs els) = map elemId els.
Proof.
  intros Hcs.
  assert (Hfor : ∀ i acc,
    (acc = [] ∨ ∃ item, acc = [ReactFlow.Replace i item] ∧ elemId item = i) →
    ReactFlow.changesFor i cs acc = []
    ∨ ∃ item, ReactFlow.changesFor i cs acc = [ReactFlow.Replace i item]
              ∧ elemId item = i).
  { intros i. induction Hcs as [|c cs Hc _ IH]; intros acc Hacc; [done|].
    destruct c as [|?|j item|]; try done. simpl. apply IH.
    case_bool_decide as Hj; [|done]. right. exists item. by subst. }
  assert (Hadded : ReactFlow.added cs = []).
  { clear Hfor. induction Hcs as [|c cs Hc _ IH]; [done|]. by destruct c. }
  unfold ReactFlow.applyChanges. rewrite Hadded, app_nil_r.
  induction els as [|el els IH]; [done|].
  cbn [omap list_omap].
  destruct (Hfor (elemId el) [] (or_introl eq_refl)) as [->|(item & -> & Hitem)];
    simpl; by rewrite IH, ?Hitem.
Qed.
End IdKeeping.

(** An edge that the batch does not remove is still there, under its
    id. *)
Lemma applyEdgeChanges_keeps (cs : list EdgeChange) (es : list CustomEdge.t) i :
  Forall keepsEdgeId cs → i ∉ ReactFlow.removed cs →
  i ∈ map CustomEdge.id es → i ∈ map CustomEdge.id (applyEdgeChanges cs es).
Proof.
  intros Hcs Hi (edge & -> & Hin)%list_elem_of_fmap.
  unfold applyEdgeChanges. rewrite (applyChanges_ids CustomEdge.id cs es Hcs).
  apply elem_of_app. left. apply list_elem_of_fmap. exists edge.
  split; [done|]. by apply list_elem_of_filter.
Qed.

Lemma applyEdgeChanges_added (cs : list EdgeChange) (es : list CustomEdge.t) item :
  item ∈ ReactFlow.added cs → item ∈ applyEdgeChanges cs es.
Proof.
  intros Hin. unfold applyEdgeChanges, ReactFlow.applyChanges.
  apply elem_of_app. by right.
Qed.

Lemma keepsEdgeId_no_replace (cs : list EdgeChange) :
  Forall keepsEdgeId cs → ReactFlow.replaced cs = [].
Proof.
  induction 1 as [|c cs Hc _ IH]; [done|]. by destruct c.
Qed.

(** X19.  [onEdgesChange] keeps the connection records of the nodes in
    step with the edges.  If every record is that of an edge of the graph,
    it is still so after a batch that adds edges, removes edges and
    selects edges. *)
Theorem onEdgesChange_connectionsKnown edgeChanges g :
  Forall keepsEdgeId edgeChanges →
  connectionsKnown g →
  connectionsKnown (onEdgesChange edgeChanges g).
Proof.
  intros Hcs Hknown. unfold onEdgesChange.
  rewrite (keepsEdgeId_no_replace _ Hcs).
  rewrite (bool_decide_false (0 < length [])%nat) by (simpl; lia).
  assert (Hkept : ∀ conn,
    ConnectionData.edge_id conn ∉ ReactFlow.removed edgeChanges →
    ConnectionData.edge_id conn ∈ map CustomEdge.id (edges g) →
    ConnectionData.edge_id conn
      ∈ map CustomEdge.id (applyEdgeChanges edgeChanges (edges g)))
    by (intros conn; by apply applyEdgeChanges_keeps).
  assert (Hnew : Forall (λ node,
      Forall (λ conn, ConnectionData.edge_id conn
                        ∈ map CustomEdge.id (applyEdgeChanges edgeChanges (edges g)))
        (filter (λ conn, ConnectionData.edge_id conn ∉ ReactFlow.removed edgeChanges)
           (CustomNodeData.connections (CustomNode.data node))
         ++ map connectionOf (ReactFlow.added edgeChanges)))
    (nodes g)).
  { eapply Forall_impl; [exact Hknown|]. intros node Hnode. simpl in Hnode.
    apply Forall_app. split.
    - apply Forall_forall. intros conn [Hnot Hin]%list_elem_of_filter.
      apply Hkept; [done|]. rewrite Forall_forall in Hnode. by apply Hnode.
    - apply Forall_fmap, Forall_forall. intros item Hitem. simpl.
      apply list_elem_of_fmap. exists item. split; [done|].
      by apply applyEdgeChanges_added. }
  case_bool_decide as Hsome.
  - case_bool_decide; unfold connectionsKnown, clearNodesStatusAndOutput, setNodes,
      setEdges; simpl; rewrite ?map_map; apply Forall_fmap;
      (eapply Forall_impl; [exact Hnew|]); by intros node Hnode.
  - unfold connectionsKnown, setEdges. simpl.
    eapply Forall_impl; [exact Hknown|]. intros node Hnode. simpl in *.
    eapply Forall_impl; [exact Hnode|]. intros conn Hconn. simpl in *.
    apply Hkept; [|done].
    destruct (ReactFlow.removed edgeChanges); [apply not_elem_of_nil|].
    exfalso. apply Hsome. right. simpl. lia.
Qed.

(** ** The tutorial *)

Lemma effect_started_cases availableNodes p :
  (Tutorial.started (Tutorial.effect availableNodes p) = Tutorial.started p
   ∧ Tutorial.tutorialStarted (Tutorial.effect availableNodes p)
     = Tutorial.tutorialStarted p
   ∧ Tutorial.resetTutorial (Tutorial.effect availableNodes p)
     = Tutorial.resetTutorial p)
  ∨ (Tutorial.started (Tutorial.effect availableNodes p) = S (Tutorial.started p)
     ∧ Tutorial.tutorialStarted p = false
     ∧ Tutorial.tutorialStarted (Tutorial.effect availableNodes p) = true
     ∧ Tutorial.resetTutorial (Tutorial.effect availableNodes p)
       = Tutorial.resetTutorial p
     ∧ availableNodes ≠ []
     ∧ Tutorial.noItem "shepherd-tour" p = true
     ∧ Tutorial.localStorage (Tutorial.effect availableNodes p) !! "shepherd-tour"
       = Some "yes").
Proof.
  unfold Tutorial.effect. case_bool_decide; [by left|].
  destruct (Tutorial.noItem "shepherd-tour" p) eqn:Hitem; [|by left].
  case_bool_decide as Hblocks; [|by left].
  destruct (Tutorial.tutorialStarted p) eqn:Hstarted; [by left|].
  right. simpl. split_and!; try done.
  - intros ->. simpl in Hblocks. lia.
  - apply lookup_insert_eq.
Qed.

Lemma effects_cons availableNodes renders p :
  Tutorial.effects (availableNodes :: renders) p
  = Tutorial.effects renders (Tutorial.effect availableNodes p).
Proof. reflexivity. Qed.

Lemma effects_started renders : ∀ p,
  Tutorial.tutorialStarted p = true →
  Tutorial.started (Tutorial.effects renders p) = Tutorial.started p.
Proof.
  induction renders as [|availableNodes renders IH]; intros p Hstarted; [done|].
  rewrite effects_cons.
  destruct (effect_started_cases availableNodes p)
    as [(Hs & Ht & _)|(_ & Hf & _)]; [|congruence].
  rewrite IH by congruence. exact Hs.
Qed.

Lemma effect_reset availableNodes p :
  Tutorial.resetTutorial p = Some "true" →
  Tutorial.effect availableNodes p
  = Tutorial.mk (Tutorial.resetTutorial p)
      (delete "shepherd-tour" (Tutorial.localStorage p))
      (Tutorial.tutorialStarted p) (Tutorial.started p) true.
Proof. intros Hreset. unfold Tutorial.effect. by rewrite bool_decide_true. Qed.

(** X20.  However often the effect runs on a page, and whatever blocks
    are available each time, it starts the tutorial at most once; and it
    does not start it while no block is available, when the browser
    already holds the tour flag, or when the URL asks for a reset. *)
Theorem tutorial_starts_at_most_once renders p :
  (Tutorial.started (Tutorial.effects renders p) ≤ S (Tutorial.started p))%nat
  ∧ (Forall (λ availableNodes, availableNodes = []) renders
     ∨ Tutorial.noItem "shepherd-tour" p = false
     ∨ Tutorial.resetTutorial p = Some "true" →
     Tutorial.started (Tutorial.effects renders p) = Tutorial.started p).
Proof.
  split.
  - revert p. induction renders as [|availableNodes renders IH]; intros p; [simpl; lia|].
    rewrite effects_cons.
    destruct (effect_started_cases availableNodes p)
      as [(Hs & _)|(Hs & _ & Ht & _)].
    + specialize (IH (Tutorial.effect availableNodes p)). lia.
    + pose proof (effects_started renders _ Ht) as Hrest. lia.
  - revert p. induction renders as [|availableNodes renders IH]; intros p Hwhy; [done|].
    rewrite effects_cons.
    destruct (decide (Tutorial.resetTutorial p = Some "true")) as [Hreset|Hplain].
    { rewrite IH; rewrite (effect_reset _ _ Hreset); [done|]. by right; right. }
    destruct Hwhy as [Hnone|[Hflag|Hreset]]; [| |done].
    + apply Forall_cons in Hnone as [-> Hnone].
      assert (Hsame : Tutorial.effect [] p = p).
      { unfold Tutorial.effect. rewrite bool_decide_false by done.
        rewrite (bool_decide_false (0 < length [])%nat) by (simpl; lia).
        by rewrite andb_false_r. }
      rewrite Hsame. apply IH. by left.
    + assert (Hsame : Tutorial.effect availableNodes p = p).
      { unfold Tutorial.effect. rewrite bool_decide_false by done. by rewrite Hflag. }
      rewrite Hsame. apply IH. by right; left.
Qed.

(** X21.  A reset clears the way for the tutorial.  With
    [resetTutorial=true] in the URL the effect removes the tour flag and
    redirects to the bare path without starting anything; on any page that
    then loads with that storage and without the parameter, the effect
    starts the tutorial as soon as a block is available, and sets the flag
    again. *)
Theorem tutorial_reset_then_start availableNodes p availableNodes' p' :
  Tutorial.resetTutorial p = Some "true" →
  Tutorial.localStorage p' = Tutorial.localStorage (Tutorial.effect availableNodes p) →
  Tutorial.resetTutorial p' ≠ Some "true" →
  Tutorial.tutorialStarted p' = false →
  availableNodes' ≠ [] →
  Tutorial.redirected (Tutorial.effect availableNodes p) = true
  ∧ Tutorial.started (Tutorial.effect availableNodes p) = Tutorial.started p
  ∧ Tutorial.localStorage (Tutorial.effect availableNodes p) !! "shepherd-tour" = None
  ∧ Tutorial.started (Tutorial.effect availableNodes' p') = S (Tutorial.started p')
  ∧ Tutorial.localStorage (Tutorial.effect availableNodes' p') !! "shepherd-tour"
    = Some "yes".
Proof.
  intros Hreset Hstorage Hplain Hfresh Hblocks.
  rewrite (effect_reset _ _ Hreset) in Hstorage |- *. simpl in Hstorage |- *.
  assert (Hstart : Tutorial.effect availableNodes' p'
            = Tutorial.mk (Tutorial.resetTutorial p')
                (<["shepherd-tour" := "yes"]> (Tutorial.localStorage p'))
                true (S (Tutorial.started p')) (Tutorial.redirected p')).
  { unfold Tutorial.effect, Tutorial.noItem.
    rewrite bool_decide_false by done.
    rewrite Hstorage, lookup_delete_eq, Hfresh.
    by rewrite bool_decide_true by (destruct availableNodes'; [done|simpl; lia]). }
  rewrite Hstart. simpl.
  split_and!; [done|done|apply lookup_delete_eq|done|apply lookup_insert_eq].
Qed.

(** ** The ids of the nodes *)

Lemma onEdgesChange_node_ids edgeChanges g :
  map CustomNode.id (nodes (onEdgesChange edgeChanges g)) = map CustomNode.id (nodes g).
Proof.
  unfold onEdgesChange, clearNodesStatusAndOutput, setNodes, setEdges.
  repeat case_bool_decide; simpl; by rewrite ?map_map.
Qed.

Lemma deleteEdges_node_ids ids g :
  map CustomNode.id (nodes (deleteEdges ids g)) = map CustomNode.id (nodes g).
Proof.
  unfold deleteEdges. case_bool_decide; [done|]. apply onEdgesChange_node_ids.
Qed.

Lemma onNodesChange_node_ids memo nodeChanges g :
  map CustomNode.id (nodes (onNodesChange memo nodeChanges g))
  = map CustomNode.id (applyNodeChanges nodeChanges (nodes g)).
Proof.
  unfold onNodesChange.
  change (applyNodeChanges nodeChanges (nodes g))
    with (nodes (setNodes (applyNodeChanges nodeChanges) g)).
  generalize (setNodes (applyNodeChanges nodeChanges) g).
  induction (ReactFlow.removed nodeChanges) as [|nodeID ids IH]; intros g'; [done|].
  simpl. rewrite IH. apply deleteEdges_node_ids.
Qed.

Lemma userNodeChange_keepsId (cs : list NodeChange) :
  Forall userNodeChange cs →
  Forall (keepsId CustomNode.id) cs ∧ ReactFlow.added cs = [].
Proof.
  induction 1 as [|c cs Hc _ [IH1 IH2]]; [done|].
  split; [constructor; [by destruct c|done]|]. by destruct c.
Qed.

(** What the user does to nodes on the canvas leaves the ids of the nodes
    that stay, in their order. *)
Lemma user_onNodesChange_node_ids memo nodeChanges g :
  Forall userNodeChange nodeChanges →
  map CustomNode.id (nodes (onNodesChange memo nodeChanges g))
  = map CustomNode.id
      (filter (λ node, CustomNode.id node ∉ ReactFlow.removed nodeChanges) (nodes g)).
Proof.
  intros [Hkeeps Hadded]%userNodeChange_keepsId.
  rewrite onNodesChange_node_ids. unfold applyNodeChanges.
  by rewrite (applyChanges_ids CustomNode.id _ _ Hkeeps), Hadded, app_nil_r.
Qed.

Lemma filter_by_id {A B} (fa : A → string) (fb : B → string)
    (Q : string → Prop) `{∀ i, Decision (Q i)} (la : list A) : ∀ (lb : list B),
  map fa la = map fb lb →
  map fa (filter (λ a, Q (fa a)) la) = map fb (filter (λ b, Q (fb b)) lb).
Proof.
  induction la as [|a la IH]; intros [|b lb] Heq; try done.
  injection Heq as Hab Heq. specialize (IH lb Heq).
  destruct (decide (Q (fa a))) as [HQ|HQ].
  - rewrite (filter_cons_True _ a), (filter_cons_True _ b) by congruence.
    simpl. by rewrite Hab, IH.
  - rewrite (filter_cons_False _ a), (filter_cons_False _ b) by congruence.
    done.
Qed.

Lemma deleteElements_node_ids memo nodeIds edgeIds g :
  map CustomNode.id (nodes (deleteElements memo nodeIds edgeIds g))
  = map CustomNode.id (filter (λ node, CustomNode.id node ∉ nodeIds) (nodes g)).
Proof.
  unfold deleteElements.
  set (matchingNodes := filter (λ node, CustomNode.id node ∈ nodeIds) (nodes g)).
  set (g1 := if bool_decide (_ = []) then g else onEdgesChange _ g).
  assert (Hg1 : map CustomNode.id (nodes g1) = map CustomNode.id (nodes g))
    by (subst g1; case_bool_decide; [done|apply onEdgesChange_node_ids]).
  case_bool_decide as Hmatch.
  - rewrite Hg1. f_equal. symmetry. apply filter_all.
    apply filter_nil_Forall in Hmatch. by eapply Forall_impl.
  - rewrite onNodesChange_node_ids. unfold applyNodeChanges.
    rewrite <- (map_map CustomNode.id ReactFlow.Remove).
    rewrite (applyChanges_removes CustomNode.id).
    assert (Hids : map CustomNode.id (nodes (onNodesDelete g1))
                   = map CustomNode.id (nodes g)).
    { unfold onNodesDelete, clearNodesStatusAndOutput, setNodes. simpl.
      by rewrite map_map. }
    etrans;
      [exact (filter_by_id CustomNode.id CustomNode.id
                (λ i, i ∉ map CustomNode.id matchingNodes) _ _ Hids)|].
    f_equal. apply filter_ext_elem. intros node Hnode. split.
    + intros Hnot Hin. apply Hnot, list_elem_of_fmap. exists node.
      split; [done|]. by apply list_elem_of_filter.
    + intros Hnot (other & Heq & [Hin _]%list_elem_of_filter)%list_elem_of_fmap.
      congruence.
Qed.

Lemma updateNode_node_ids memo i p g :
  map CustomNode.id (nodes (updateNode memo i p g)) = map CustomNode.id (nodes g).
Proof.
  unfold updateNode. rewrite onNodesChange_node_ids. unfold applyNodeChanges.
  apply applyChanges_replacements, Forall_forall.
  intros c (node & Hin & Hc)%list_elem_of_omap.
  case_bool_decide; [|done]. by injection Hc as <-.
Qed.

(** ** Nodes that the library removes *)





Lemma issued_mono k k' i : (k ≤ k')%Z → issued k i → issued k' i.
Proof. intros Hle (j & -> & Hj). exists j. split; [done|lia]. Qed.

Lemma issued_not_counter k ids :
  Forall (issued k) ids → pretty k ∉ ids.
Proof.
  intros Hids Hin. rewrite Forall_forall in Hids.
  destruct (Hids _ Hin) as (j & Heq & Hj). apply (inj pretty) in Heq. lia.
Qed.

Lemma pushedNodeIds_app ds1 ds2 :
  pushedNodeIds (ds1 ++ ds2) = pushedNodeIds ds1 ++ pushedNodeIds ds2.
Proof. apply omap_app. Qed.

(** The order of the ids survives when nodes only go. *)
Lemma idsInOrder_fewer g g' k h memo :
  map CustomNode.id (nodes g') `sublist_of` map CustomNode.id (nodes g) →
  idsInOrder g k h memo → idsInOrder g' k h memo.
Proof.
  intros Hsub (Hdup & Hissued & made & undone & Hpast & Hfuture & Hd & Hi & Haway).
  split_and!.
  - exact (sublist_NoDup _ _ Hdup Hsub).
  - apply Forall_forall. intros i Hin. rewrite Forall_forall in Hissued.
    exact (Hissued i (elem_of_sublist _ _ i Hin Hsub)).
  - exists made, undone. split_and!; try done.
    eapply Forall_impl; [exact Haway|]. intros i Hi' Hin. simpl in Hi'.
    exact (Hi' (elem_of_sublist _ _ i Hin Hsub)).
Qed.

Lemma idsInOrder_same_ids g g' k h memo :
  map CustomNode.id (nodes g') = map CustomNode.id (nodes g) →
  idsInOrder g k h memo → idsInOrder g' k h memo.
Proof. intros Hids. apply idsInOrder_fewer. by rewrite Hids. Qed.

(** An entry for an edge or for a move does not disturb it. *)
Lemma idsInOrder_push d g k h memo :
  match d with PushedNode _ => False | _ => True end →
  idsInOrder g k h memo →
  idsInOrder g k (History.push (entryOf memo d) h) memo.
Proof.
  intros Hd (Hdup & Hissued & made & undone & Hpast & Hfuture & Hnd & Hi & Haway).
  rewrite pushedNodeIds_app in Hnd, Hi.
  apply NoDup_app in Hnd as (Hnd & _ & _). apply Forall_app in Hi as [Hi _].
  split_and!; [done..|].
  assert (Hids : pushedNodeIds ((d :: made) ++ []) = pushedNodeIds made)
    by (rewrite app_nil_r; by destruct d).
  exists (d :: made), []. rewrite Hids.
  split_and!; [simpl; by rewrite Hpast|done..|constructor].
Qed.

(** A new node under the value of the counter keeps it, with the counter
    moved on. *)
Lemma idsInOrder_add newNode g g' k h memo :
  CustomNode.id newNode = pretty k →
  map CustomNode.id (nodes g') = map CustomNode.id (nodes g) ++ [CustomNode.id newNode] →
  idsInOrder g k h memo →
  idsInOrder g' (k + 1) (History.push (nodeAction memo newNode) h) memo.
Proof.
  intros Hid Hids (Hdup & Hissued & made & undone & Hpast & Hfuture & Hnd & Hi & Haway).
  rewrite pushedNodeIds_app in Hnd, Hi.
  apply NoDup_app in Hnd as (Hnd & _ & _). apply Forall_app in Hi as [Hi _].
  assert (Hnew : issued (k + 1) (CustomNode.id newNode))
    by (exists k; split; [done|lia]).
  split_and!.
  - rewrite Hids. apply NoDup_app. split_and!; [done| |apply NoDup_singleton].
    intros i Hin Hnewid. apply list_elem_of_singleton in Hnewid. subst i.
    rewrite Hid in Hin. by apply (issued_not_counter k _ Hissued).
  - rewrite Hids. apply Forall_app. split.
    + eapply Forall_impl; [exact Hissued|]. intros i. apply issued_mono. lia.
    + by constructor.
  - assert (Hids' : pushedNodeIds ((PushedNode newNode :: made) ++ [])
                    = CustomNode.id newNode :: pushedNodeIds made)
      by (by rewrite app_nil_r).
    exists (PushedNode newNode :: made), []. rewrite Hids'.
    split_and!; [simpl; by rewrite Hpast|done| | |constructor].
    + constructor; [|done]. rewrite Hid. by apply issued_not_counter.
    + constructor; [done|].
      eapply Forall_impl; [exact Hi|]. intros i. apply issued_mono. lia.
Qed.

Lemma handleUndo_inOrder st : editorInOrder st → editorInOrder (handleUndo st).
Proof.
  unfold editorInOrder, handleUndo, History.undo.
  intros (Hdup & Hissued & made & undone & Hpast & Hfuture & Hnd & Hi & Haway).
  destruct made as [|d made].
  { rewrite Hpast. simpl. split_and!; [done..|]. by exists [], undone. }
  rewrite Hpast. simpl.
  assert (Hperm : pushedNodeIds (made ++ d :: undone)
                  ≡ₚ pushedNodeIds ((d :: made) ++ undone)).
  { unfold pushedNodeIds. apply omap_Permutation. symmetry. apply Permutation_middle. }
  assert (Hrest : ∀ g',
    map CustomNode.id (nodes g') `sublist_of` map CustomNode.id (nodes (graph st)) →
    Forall (λ i, i ∉ map CustomNode.id (nodes g')) (pushedNodeIds [d]) →
    idsInOrder g' (nodeId st)
      (History.mk (map (entryOf (memoEdges st)) made)
         (entryOf (memoEdges st) d :: History.future (history st)))
      (memoEdges st)).
  { intros g' Hsub Hgone. split_and!.
    - exact (sublist_NoDup _ _ Hdup Hsub).
    - apply Forall_forall. intros i Hin. rewrite Forall_forall in Hissued.
      exact (Hissued i (elem_of_sublist _ _ i Hin Hsub)).
    - exists made, (d :: undone).
      split_and!; [done|simpl; by rewrite Hfuture|by rewrite Hperm..|].
      change (pushedNodeIds (d :: undone)) with (pushedNodeIds ([d] ++ undone)).
      rewrite pushedNodeIds_app.
      apply Forall_app. split; [done|].
      eapply Forall_impl; [exact Haway|]. intros i Hi' Hin. simpl in Hi'.
      exact (Hi' (elem_of_sublist _ _ i Hin Hsub)). }
  destruct d as [newNode|newEdge|i oldPosition newPosition]; apply Hrest; simpl.
  - rewrite deleteElements_node_ids. apply fmap_sublist, sublist_filter.
  - constructor; [|constructor]. rewrite deleteElements_node_ids.
    intros (node & Heq & [Hnot _]%list_elem_of_filter)%list_elem_of_fmap.
    apply Hnot. rewrite Heq. listed.
  - by rewrite deleteEdges_node_ids.
  - constructor.
  - by rewrite updateNode_node_ids.
  - constructor.
Qed.

Lemma handleRedo_inOrder st : editorInOrder st → editorInOrder (handleRedo st).
Proof.
  unfold editorInOrder, handleRedo, History.redo.
  intros (Hdup & Hissued & made & undone & Hpast & Hfuture & Hnd & Hi & Haway).
  destruct undone as [|d undone].
  { rewrite Hfuture. simpl. split_and!; [done..|]. by exists made, []. }
  rewrite Hfuture. simpl.
  assert (Hperm : pushedNodeIds ((d :: made) ++ undone)
                  ≡ₚ pushedNodeIds (made ++ d :: undone)).
  { unfold pushedNodeIds. apply omap_Permutation. apply Permutation_middle. }
  change (d :: undone) with ([d] ++ undone) in Haway.
  rewrite pushedNodeIds_app in Haway. apply Forall_app in Haway as [Hd Haway].
  destruct d as [newNode|newEdge|i oldPosition newPosition]; simpl.
  - (* the node comes back *)
    rewrite addNodes_spec. apply Forall_cons in Hd as [Hd _].
    rewrite pushedNodeIds_app in Hnd, Hi.
    apply NoDup_app in Hnd as (Hnd1 & Hnd2 & Hnd3).
    apply Forall_app in Hi as [Hi1 Hi2].
    simpl in Hnd3, Hi2. apply NoDup_cons in Hnd3 as [Hfresh Hnd3].
    apply Forall_cons in Hi2 as [Hnew Hi2].
    split_and!; simpl.
    + rewrite map_app. apply NoDup_app. split_and!; [done| |apply NoDup_singleton].
      intros j Hj Hj'. apply list_elem_of_singleton in Hj'. by subst j.
    + rewrite map_app. apply Forall_app. split; [done|]. by constructor.
    + exists (PushedNode newNode :: made), undone. simpl. rewrite Hpast.
      split_and!; try done.
      * rewrite pushedNodeIds_app. apply NoDup_cons. split.
        -- intros [Hin|Hin]%elem_of_app; [|done].
           by apply (Hnd2 _ Hin), list_elem_of_here.
        -- apply NoDup_app. split_and!; [done| |done].
           intros j Hj Hj'. by apply (Hnd2 _ Hj), list_elem_of_further.
      * rewrite pushedNodeIds_app. constructor; [done|]. by apply Forall_app.
      * rewrite map_app. apply Forall_forall. intros j Hj [Hin|Hin]%elem_of_app.
        -- rewrite Forall_forall in Haway. by apply (Haway j).
        -- apply list_elem_of_singleton in Hin. by subst j.
  - apply (idsInOrder_same_ids (graph st));
      [unfold addEdges; apply onEdgesChange_node_ids|].
    split_and!; [done..|].
    exists (PushedEdge newEdge :: made), undone.
    split_and!; [simpl; by rewrite Hpast|done|by rewrite Hperm..|done].
  - apply (idsInOrder_same_ids (graph st)); [apply updateNode_node_ids|].
    split_and!; [done..|].
    exists (PushedMove i oldPosition newPosition :: made), undone.
    split_and!; [simpl; by rewrite Hpast|done|by rewrite Hperm..|done].
Qed.

Lemma pastedNode_id_inv nodeId ns i :
  i ∈ map CustomNode.id (imap (pastedNode nodeId) ns) →
  ∃ index, (index < length ns)%nat ∧ i = pretty (nodeId + Z.of_nat index)%Z.
Proof.
  rewrite pastedNodes_ids. intros (index & Hindex)%list_elem_of_lookup_1.
  rewrite list_lookup_imap in Hindex.
  destruct (ns !! index) eqn:Hns; [|done]. injection Hindex as <-.
  exists index. split; [by eapply lookup_lt_Some|done].
Qed.

(** Copies under the next values of the counter keep it, with the counter
    moved past them. *)
Lemma idsInOrder_paste g g' k h memo (cs : list CustomNode.t) :
  map CustomNode.id (nodes g')
  = map CustomNode.id (nodes g) ++ map CustomNode.id (imap (pastedNode k) cs) →
  idsInOrder g k h memo →
  idsInOrder g' (k + Z.of_nat (length cs)) h memo.
Proof.
  intros Hids (Hdup & Hissued & made & undone & Hpast & Hfuture & Hnd & Hi & Haway).
  unfold idsInOrder. rewrite Hids.
  assert (Hold : ∀ i index, issued k i → i ≠ pretty (k + Z.of_nat index)%Z).
  { intros i index (j & -> & Hj) Heq. apply (inj pretty) in Heq. lia. }
  split_and!.
  - apply NoDup_app. split_and!; [done| |apply pastedNodes_NoDup].
    intros i Hin (index & _ & Heq)%pastedNode_id_inv.
    rewrite Forall_forall in Hissued. by apply (Hold i index (Hissued i Hin)).
  - apply Forall_app. split.
    + eapply Forall_impl; [exact Hissued|]. intros i. apply issued_mono. lia.
    + apply Forall_forall. intros i (index & Hindex & ->)%pastedNode_id_inv.
      eexists. split; [reflexivity|lia].
  - exists made, undone. split_and!; try done.
    + eapply Forall_impl; [exact Hi|]. intros i. apply issued_mono. lia.
    + rewrite pushedNodeIds_app in Hi. apply Forall_app in Hi as [_ Hi].
      apply Forall_forall. intros i Hin [Hcanvas|Hnew]%elem_of_app.
      * rewrite Forall_forall in Haway. by apply (Haway i).
      * apply pastedNode_id_inv in Hnew as (index & _ & Heq).
        rewrite Forall_forall in Hi. by apply (Hold i index (Hi i Hin)).
Qed.

Lemma pasteClipboard_inOrder env st :
  editorInOrder st → editorInOrder (pasteClipboard env st).
Proof.
  intros Hinv. destruct (decide (copiedNodes st = [])) as [Hnone|Hsome].
  { unfold pasteClipboard. by rewrite Hnone. }
  destruct (pasteClipboard_graph env st Hsome) as (f & h & Hf & Hspec).
  cbv zeta in Hspec. rewrite Hspec. unfold editorInOrder. simpl.
  apply (idsInOrder_paste (graph st)); [|exact Hinv].
  simpl. rewrite map_map.
  rewrite (map_ext (λ node, CustomNode.id (f node)) CustomNode.id)
    by (intros node; apply Hf).
  by rewrite map_app, map_map.
Qed.

Lemma handleKeyDown_cases env event st :
  handleKeyDown env event st = st
  ∨ handleKeyDown env event st = copySelection st
  ∨ handleKeyDown env event st = pasteClipboard env st.
Proof.
  unfold handleKeyDown.
  destruct (isAnyModalOpen st || Env.isInputField env); [by left|].
  destruct (KeyboardEvent.ctrlKey event || KeyboardEvent.metaKey event); [|by left].
  destruct (decide (KeyboardEvent.key event = "c")) as [->|Hc]; [by right; left|].
  destruct (decide (KeyboardEvent.key event = "C")) as [->|HC]; [by right; left|].
  rewrite (bool_decide_false (_ = "c")), (bool_decide_false (_ = "C")) by done.
  simpl. destruct (_ || _); auto.
Qed.

(** A user action keeps the ids in order. *)
Lemma step_inOrder env st ev :
  userEvent ev → editorInOrder st → editorInOrder (step env st ev).
Proof.
  intros Huser Hinv.
  destruct ev as [node|[node|]|nodeChanges|edgeChanges| |connection|blockId nodeType
                 | | |event|isOpen| ]; simpl.
  - exact Hinv.
  - (* a drag ended *)
    unfold onNodeDragEnd. simpl.
    destruct (initialPositionRef st !! CustomNode.id node) as [oldPosition|];
      [|exact Hinv].
    destruct (movedEnough _ _); [|exact Hinv].
    exact (idsInOrder_push
             (PushedMove (CustomNode.id node) oldPosition (CustomNode.position node))
             _ _ _ _ I Hinv).
  - exact Hinv.
  - (* nodes removed, selected or moved *)
    apply (idsInOrder_fewer (graph st)); [|exact Hinv]. simpl.
    rewrite user_onNodesChange_node_ids by done.
    apply fmap_sublist, sublist_filter.
  - apply (idsInOrder_same_ids (graph st)); [|exact Hinv].
    apply onEdgesChange_node_ids.
  - apply (idsInOrder_same_ids (graph st)); [|exact Hinv].
    unfold onNodesDelete, clearNodesStatusAndOutput, setNodes. simpl.
    by rewrite map_map.
  - (* a connection *)
    destruct (getNode (Connection.source connection) (graph st)) as [sourceNode|] eqn:Hget;
      [|unfold onConnect; rewrite Hget; exact Hinv].
    rewrite (onConnect_found env connection st sourceNode Hget). simpl.
    unfold editorInOrder. simpl.
    apply (idsInOrder_same_ids (graph st)).
    { unfold clearNodesStatusAndOutput, setNodes, addEdges. simpl.
      by rewrite map_map, onEdgesChange_node_ids. }
    exact (idsInOrder_push (PushedEdge (newEdgeOf env connection sourceNode))
             _ _ _ _ I Hinv).
  - (* a block *)
    destruct (List.find (λ node, bool_decide (Block.id node = blockId)) (availableNodes st))
      as [nodeSchema|] eqn:Hfind; [|unfold addNode; rewrite Hfind; exact Hinv].
    rewrite (addNode_found env blockId nodeType st nodeSchema Hfind).
    unfold editorInOrder. simpl.
    apply (idsInOrder_add _ (graph st)); [done| |exact Hinv].
    simpl. by rewrite map_app, map_map.
  - by apply handleUndo_inOrder.
  - by apply handleRedo_inOrder.
  - (* a key *)
    assert (Hfirst : editorInOrder (undoRedoKeyDown env event st)).
    { destruct (undoRedoKeyDown_cases env event st) as [->|[->| ->]];
        [done|by apply handleUndo_inOrder|by apply handleRedo_inOrder]. }
    destruct (handleKeyDown_cases env event (undoRedoKeyDown env event st))
      as [->|[->| ->]]; [done|exact Hfirst|by apply pasteClipboard_inOrder].
  - exact Hinv.
  - (* the delete key *)
    apply (idsInOrder_fewer (graph st)); [|exact Hinv]. simpl.
    rewrite deleteElements_node_ids. apply fmap_sublist, sublist_filter.
Qed.

(** X22.  In a session of user actions on a freshly mounted editor
    (blocks added, connections made, drags, nodes and edges selected,
    moved and deleted, copy and paste, undo and redo) no two nodes of the
    graph ever share an id, and every id is a value that the counter has
    passed: the ids handed out by [addNode] and by paste never collide,
    not even with nodes that undo took away and redo brings back. *)
Theorem node_ids_distinct env blocks events :
  Forall userEvent events →
  let st := run env (mounted blocks) events in
  NoDup (map CustomNode.id (nodes (graph st)))
  ∧ Forall (issued (nodeId st)) (map CustomNode.id (nodes (graph st))).
Proof.
  intros Huser st.
  cut (editorInOrder st); [by intros (? & ? & _)|]. subst st.
  assert (Hstart : editorInOrder (mounted blocks)).
  { split_and!; [constructor..|]. exists [], []. split_and!; by constructor. }
  revert Hstart. generalize (mounted blocks).
  induction Huser as [|ev events Hev _ IH]; intros st Hinv; [done|].
  change (run env st (ev :: events)) with (run env (step env st ev) events).
  by apply IH, step_inOrder.
Qed.

(** X23.  Copy and paste are not logged.  A press of c, C, v or V, with
    or without modifier, modal or input field, leaves the history as it
    is: a paste pushes no entry, so undo after a paste does not take the
    pasted nodes back but reverts the action before it. *)
Theorem paste_not_logged env event st :
  KeyboardEvent.key event ∈ ["c"; "C"; "v"; "V"] →
  history (step env st (KeyDown event)) = history st.
Proof.
  intros Hkey. simpl.
  rewrite undoRedoKeyDown_other.
  - apply handleKeyDown_history.
  - intros Hin.
    repeat (apply elem_of_cons in Hkey as [Heq|Hkey];
            [rewrite Heq in Hin; revert Hin; not_listed|]).
    by apply elem_of_nil in Hkey.
Qed.

(** X24.  Drawing a connection between handles that are connected already
    resets the connection records: the edges keep their ids, but every
    node is left with the record of the redrawn edge alone, whatever other
    edges it had a record of. *)
Theorem reconnection_resets_records env connection st st' :
  onConnect env connection st = Some st' →
  formatEdgeID (inr connection) ∈ map CustomEdge.id (edges (graph st)) →
  ∃ newEdge,
    CustomEdge.id newEdge = formatEdgeID (inr connection)
    ∧ Forall (λ node,
        CustomNodeData.connections (CustomNode.data node) = [connectionOf newEdge])
        (nodes (graph st'))
    ∧ map CustomEdge.id (edges (graph st')) = map CustomEdge.id (edges (graph st)).
Proof.
  intros (sourceNode & _ & ->)%onConnect_inv Hheld.
  exists (newEdgeOf env connection sourceNode).
  rewrite addEdges_held by exact Hheld.
  unfold clearNodesStatusAndOutput, setNodes. cbn [nodes edges].
  split_and!; [reflexivity| |].
  - apply Forall_fmap, Forall_fmap, Forall_forall. by intros node _.
  - rewrite map_map. apply map_ext. intros edge. by case_bool_decide.
Qed.

(** ** The further statements at work on the small session *)

Lemma handleKeyDown_acts_only_when_allowed_witness :
  handleKeyDown demoEnv ctrlC selectedPair ≠ selectedPair
  ∧ KeyboardEvent.key ctrlC ∈ ["c"; "C"; "v"; "V"].
Proof.
  assert (Hacts : handleKeyDown demoEnv ctrlC selectedPair ≠ selectedPair).
  { intros Heq. apply (f_equal (λ st, length (copiedNodes st))) in Heq.
    vm_compute in Heq. discriminate Heq. }
  split; [exact Hacts|].
  exact (proj2 (proj2 (proj2
    (handleKeyDown_acts_only_when_allowed demoEnv ctrlC selectedPair Hacts)))).
Defined.

Lemma keydown_while_blocked_witness :
  (isAnyModalOpen behindModal = true ∨ Env.isInputField demoEnv = true)
  ∧ length (copiedNodes behindModal) = 2%nat
  ∧ step demoEnv behindModal (KeyDown ctrlV) = undoRedoKeyDown demoEnv ctrlV behindModal.
Proof.
  assert (Hblocked : isAnyModalOpen behindModal = true ∨ Env.isInputField demoEnv = true)
    by (left; reflexivity).
  split_and!; [exact Hblocked|by vm_compute|].
  exact (keydown_while_blocked demoEnv ctrlV behindModal Hblocked).
Defined.

Lemma keydown_without_modifier_witness :
  KeyboardEvent.ctrlKey plainZ = false ∧ KeyboardEvent.metaKey plainZ = false
  ∧ step demoEnv wiredPair (KeyDown plainZ) = wiredPair.
Proof.
  split_and!; [reflexivity..|].
  exact (keydown_without_modifier demoEnv plainZ wiredPair eq_refl eq_refl).
Defined.

Lemma drag_end_without_start_witness :
  initialPositionRef twoAdders !! CustomNode.id firstAdder = None
  ∧ history (onNodeDragEnd (Some draggedAdder) twoAdders) = history twoAdders.
Proof.
  assert (Hnone : initialPositionRef twoAdders !! CustomNode.id draggedAdder = None)
    by reflexivity.
  split; [exact Hnone|].
  exact (proj1 (drag_end_without_start (Some draggedAdder) twoAdders Hnone)).
Defined.

Lemma drag_end_forgets_start_witness :
  CustomNode.id draggedAdder = CustomNode.id firstAdder
  ∧ CustomNode.id nudgedAdder = CustomNode.id firstAdder
  ∧ initialPositionRef
      (onNodeDragEnd (Some draggedAdder)
         (run demoEnv (onNodeDragStart firstAdder twoAdders) (NodesChange <$> [])))
    = delete (CustomNode.id firstAdder) (initialPositionRef twoAdders).
Proof.
  split_and!; [reflexivity..|].
  exact (proj1 (drag_end_forgets_start demoEnv firstAdder draggedAdder nudgedAdder []
                  twoAdders eq_refl eq_refl)).
Defined.

Lemma drags_do_not_mix_witness :
  CustomNode.id draggedAdder = CustomNode.id firstAdder
  ∧ CustomNode.id secondAdder ≠ CustomNode.id firstAdder
  ∧ history (onNodeDragEnd (Some draggedAdder)
               (onNodeDragStart secondAdder (onNodeDragStart firstAdder twoAdders)))
    = history (onNodeDragEnd (Some draggedAdder) (onNodeDragStart firstAdder twoAdders)).
Proof.
  assert (Hother : CustomNode.id secondAdder ≠ CustomNode.id firstAdder)
    by (intros Heq; vm_compute in Heq; discriminate Heq).
  split_and!; [reflexivity|exact Hother|].
  exact (proj1 (drags_do_not_mix firstAdder secondAdder draggedAdder twoAdders
                  eq_refl Hother)).
Defined.

Lemma formatEdgeID_inj_witness :
  namedNull ≠ noHandle
  ∧ underscoreFree (Connection.source namedNull)
  ∧ underscoreFree (Connection.source noHandle)
  ∧ underscoreFree (handleText (Connection.sourceHandle namedNull))
  ∧ underscoreFree (handleText (Connection.sourceHandle noHandle))
  ∧ underscoreFree (Connection.target namedNull)
  ∧ underscoreFree (Connection.target noHandle)
  ∧ formatEdgeID (inr namedNull) = formatEdgeID (inr noHandle)
  ∧ handleText (Connection.sourceHandle namedNull)
    = handleText (Connection.sourceHandle noHandle)
  ∧ Connection.target namedNull = Connection.target noHandle.
Proof.
  assert (Hs1 : underscoreFree (Connection.source namedNull)) by no_underscore.
  assert (Hs2 : underscoreFree (Connection.source noHandle)) by no_underscore.
  assert (Hh1 : underscoreFree (handleText (Connection.sourceHandle namedNull)))
    by no_underscore.
  assert (Hh2 : underscoreFree (handleText (Connection.sourceHandle noHandle)))
    by no_underscore.
  assert (Ht1 : underscoreFree (Connection.target namedNull)) by no_underscore.
  assert (Ht2 : underscoreFree (Connection.target noHandle)) by no_underscore.
  assert (Hid : formatEdgeID (inr namedNull) = formatEdgeID (inr noHandle))
    by reflexivity.
  destruct (formatEdgeID_inj namedNull noHandle Hs1 Hs2 Hh1 Hh2 Ht1 Ht2 Hid)
    as (_ & Hhandle & Htarget & _).
  split_and!; [discriminate|exact Hs1|exact Hs2|exact Hh1|exact Hh2|exact Ht1|exact Ht2
              |exact Hid|exact Hhandle|exact Htarget].
Defined.

Lemma edits_wipe_results_witness :
  (Connection.source secondWire ∈ map CustomNode.id (nodes (graph ranPair)))
  ∧ map (λ node, CustomNodeData.status (CustomNode.data node)) (nodes (graph ranPair))
    = [Some "COMPLETED"; Some "COMPLETED"]
  ∧ resultsWiped (graph (step demoEnv ranPair (Connect secondWire))).
Proof.
  assert (Hin : Connection.source secondWire ∈ map CustomNode.id (nodes (graph ranPair)))
    by (vm_compute; listed).
  split_and!; [exact Hin|by vm_compute|].
  exact (edits_wipe_results demoEnv ranPair (Connect secondWire) Hin).
Defined.

Lemma onEdgesChange_keeps_results_witness :
  ReactFlow.removed [selectEdge "1_result_2_a" true] = []
  ∧ ReactFlow.replaced [selectEdge "1_result_2_a" true] = []
  ∧ map (λ node, CustomNodeData.status (CustomNode.data node)) (nodes (graph ranPair))
    = [Some "COMPLETED"; Some "COMPLETED"]
  ∧ map nodeResult
      (nodes (onEdgesChange [selectEdge "1_result_2_a" true] (graph ranPair)))
    = map nodeResult (nodes (graph ranPair)).
Proof.
  split_and!; [reflexivity|reflexivity|by vm_compute|].
  exact (onEdgesChange_keeps_results [selectEdge "1_result_2_a" true] (graph ranPair)
           eq_refl eq_refl).
Defined.

Lemma copy_paste_without_nodes_witness :
  let pasted := step demoEnv (step demoEnv selectedWire (KeyDown ctrlC)) (KeyDown ctrlV) in
  isCopyKey ctrlC ∧ isPasteKey ctrlV
  ∧ filter (λ node, CustomNode.selected node = true) (nodes (graph selectedWire)) = []
  ∧ map CustomEdge.id
      (filter (λ edge, CustomEdge.selected edge = true) (edges (graph selectedWire)))
    = ["1_result_2_a"]
  ∧ copiedEdges pasted
    = filter (λ edge, CustomEdge.selected edge = true) (edges (graph selectedWire))
  ∧ graph pasted = graph selectedWire.
Proof.
  intros pasted.
  assert (Hcopy : isCopyKey ctrlC) by (split; [reflexivity|listed]).
  assert (Hpaste : isPasteKey ctrlV) by (split; [reflexivity|listed]).
  assert (Hnone : filter (λ node, CustomNode.selected node = true)
                    (nodes (graph selectedWire)) = []) by (vm_compute; reflexivity).
  destruct (copy_paste_without_nodes demoEnv ctrlC ctrlV selectedWire
              eq_refl eq_refl Hcopy Hpaste Hnone) as (Hstored & Hgraph & _).
  split_and!; [exact Hcopy|exact Hpaste|exact Hnone|by vm_compute|exact Hstored
              |exact Hgraph].
Defined.

Lemma paste_selects_copies_witness :
  isCopyKey ctrlC ∧ isPasteKey ctrlV
  ∧ filter (λ node, CustomNode.selected node = true) (nodes (graph selectedPair)) ≠ []
  ∧ length (drop (length (nodes (graph selectedPair)))
              (nodes (graph (step demoEnv (step demoEnv selectedPair (KeyDown ctrlC))
                               (KeyDown ctrlV)))))
    = length (filter (λ node, CustomNode.selected node = true)
                (nodes (graph selectedPair))).
Proof.
  assert (Hcopy : isCopyKey ctrlC) by (split; [reflexivity|listed]).
  assert (Hpaste : isPasteKey ctrlV) by (split; [reflexivity|listed]).
  assert (Hsome : filter (λ node, CustomNode.selected node = true)
                    (nodes (graph selectedPair)) ≠ []).
  { intros Heq. apply (f_equal length) in Heq. vm_compute in Heq. discriminate Heq. }
  split_and!; [exact Hcopy|exact Hpaste|exact Hsome|].
  exact (proj2 (paste_selects_copies demoEnv ctrlC ctrlV selectedPair
                  eq_refl eq_refl Hcopy Hpaste Hsome)).
Defined.

Lemma paste_closed_selection_witness :
  Forall (λ edge,
            CustomEdge.source edge ∈ map CustomNode.id (copiedNodes copiedPair)
            ∧ CustomEdge.target edge ∈ map CustomNode.id (copiedNodes copiedPair))
         (copiedEdges copiedPair)
  ∧ Forall (λ edge,
              CustomEdge.source edge
                ∈ map CustomNode.id
                    (drop (length (nodes (graph copiedPair)))
                       (nodes (graph (pasteClipboard demoEnv copiedPair))))
              ∧ CustomEdge.target edge
                  ∈ map CustomNode.id
                      (drop (length (nodes (graph copiedPair)))
                         (nodes (graph (pasteClipboard demoEnv copiedPair)))))
           (drop (length (edges (graph copiedPair)))
              (edges (graph (pasteClipboard demoEnv copiedPair)))).
Proof.
  assert (Hclosed :
    Forall (λ edge,
              CustomEdge.source edge ∈ map CustomNode.id (copiedNodes copiedPair)
              ∧ CustomEdge.target edge ∈ map CustomNode.id (copiedNodes copiedPair))
           (copiedEdges copiedPair)).
  { apply (bool_decide_unpack _). vm_compute. exact I. }
  split; [exact Hclosed|].
  exact (paste_closed_selection demoEnv copiedPair Hclosed).
Defined.

Lemma paste_twice_stacks_witness :
  copiedNodes copiedPair ≠ []
  ∧ nodeId (pasteClipboard demoEnv (pasteClipboard demoEnv copiedPair))
    = (nodeId copiedPair + 2 * Z.of_nat (length (copiedNodes copiedPair)))%Z.
Proof.
  assert (Hsome : copiedNodes copiedPair ≠ []).
  { intros Heq. apply (f_equal length) in Heq. vm_compute in Heq. discriminate Heq. }
  split; [exact Hsome|].
  exact (proj2 (paste_twice_stacks demoEnv demoEnv copiedPair Hsome)).
Defined.

Lemma onEdgesChange_connectionsKnown_witness :
  Forall keepsEdgeId [ReactFlow.Remove "1_result_2_a"]
  ∧ connectionsKnown (graph wiredPair)
  ∧ connectionsKnown (onEdgesChange [ReactFlow.Remove "1_result_2_a"] (graph wiredPair)).
Proof.
  assert (Hkeeps : Forall keepsEdgeId
                     [ReactFlow.Remove (A:=CustomEdge.t) "1_result_2_a"])
    by (repeat constructor).
  assert (Hknown : connectionsKnown (graph wiredPair)).
  { unfold connectionsKnown. apply (bool_decide_unpack _). vm_compute. exact I. }
  split_and!; [exact Hkeeps|exact Hknown|].
  exact (onEdgesChange_connectionsKnown _ _ Hkeeps Hknown).
Defined.

Lemma tutorial_reset_then_start_witness :
  Tutorial.resetTutorial resetPage = Some "true"
  ∧ Tutorial.resetTutorial nextPage ≠ Some "true"
  ∧ Tutorial.tutorialStarted nextPage = false
  ∧ [adderBlock] ≠ []
  ∧ Tutorial.redirected (Tutorial.effect [adderBlock] resetPage) = true
  ∧ Tutorial.started (Tutorial.effect [adderBlock] nextPage)
    = S (Tutorial.started nextPage).
Proof.
  assert (Hnext : Tutorial.resetTutorial nextPage ≠ Some "true")
    by (intros Heq; discriminate Heq).
  assert (Hblocks : [adderBlock] ≠ []) by (intros Heq; discriminate Heq).
  pose proof (tutorial_reset_then_start [adderBlock] resetPage [adderBlock] nextPage
                eq_refl eq_refl Hnext eq_refl Hblocks)
    as (Hredirected & _ & _ & Hstarted & _).
  split_and!; [reflexivity|exact Hnext|reflexivity|exact Hblocks
              |exact Hredirected|exact Hstarted].
Defined.

Lemma node_ids_distinct_witness :
  Forall userEvent userSession
  ∧ NoDup (map CustomNode.id (nodes (graph (run demoEnv (mounted [adderBlock])
                                              userSession)))).
Proof.
  assert (Huser : Forall userEvent userSession).
  { unfold userSession.
    repeat first [exact I | apply Forall_nil_2 | apply Forall_cons_2
                 | (intros node; reflexivity)]. }
  split; [exact Huser|].
  exact (proj1 (node_ids_distinct demoEnv [adderBlock] userSession Huser)).
Defined.

Lemma paste_not_logged_witness :
  (KeyboardEvent.key ctrlV ∈ ["c"; "C"; "v"; "V"])
  ∧ history (step demoEnv copiedPair (KeyDown ctrlV)) = history copiedPair.
Proof.
  assert (Hkey : KeyboardEvent.key ctrlV ∈ ["c"; "C"; "v"; "V"]) by listed.
  split; [exact Hkey|].
  exact (paste_not_logged demoEnv ctrlV copiedPair Hkey).
Defined.

Lemma reconnection_resets_records_witness :
  (formatEdgeID (inr wire) ∈ map CustomEdge.id (edges (graph doublyWired)))
  ∧ map (λ node, map ConnectionData.edge_id
                   (CustomNodeData.connections (CustomNode.data node)))
      (nodes (graph doublyWired))
    = [["1_result_2_a"; "1_result_2_b"]; ["1_result_2_a"; "1_result_2_b"]]
  ∧ ∃ st' newEdge,
      onConnect demoEnv wire doublyWired = Some st'
      ∧ CustomEdge.id newEdge = "1_result_2_a"
      ∧ Forall (λ node,
          CustomNodeData.connections (CustomNode.data node) = [connectionOf newEdge])
          (nodes (graph st'))
      ∧ map CustomEdge.id (edges (graph st')) = ["1_result_2_a"; "1_result_2_b"].
Proof.
  assert (Hheld : formatEdgeID (inr wire) ∈ map CustomEdge.id (edges (graph doublyWired)))
    by (vm_compute; listed).
  split_and!; [exact Hheld|by vm_compute|].
  destruct (getNode (Connection.source wire) (graph doublyWired))
    as [sourceNode|] eqn:Hget; [|by vm_compute in Hget].
  pose proof (onConnect_found demoEnv wire doublyWired sourceNode Hget) as Hconn.
  cbv zeta in Hconn.
  destruct (reconnection_resets_records demoEnv wire doublyWired _ Hconn Hheld)
    as (newEdge & Hid & Hrecords & Hedges).
  eexists _, newEdge. split_and!; [exact Hconn| |exact Hrecords|].
  - rewrite Hid. reflexivity.
  - rewrite Hedges. by vm_compute.
Defined.
